(** * Verification of the upload / analysis / history workflow of [App.tsx]

    The component [App] keeps four pieces of React state
    ([selectedLanguage], [isAnalyzing], [history], [currentFile]) and a ref
    to the file input.  Its handlers are embedded as functions on an explicit
    state record; the asynchronous handler [runAnalysis] is split at its
    suspension points, the suspended closure being kept as a [Task].  The
    browser (clicks, file dialogs, the settling of the two awaited promises)
    is an [event] stream that drives a deterministic [step] function. *)

From Stdlib Require Import String Ascii List ZArith Bool Lia Sorted.
Import ListNotations.

Open Scope string_scope.
Open Scope list_scope.
Open Scope Z_scope.

(** ** Data model ([types.ts]) *)

(** [export enum Language], in declaration order. *)
Inductive Language : Type :=
| TAMIL
| ENGLISH
| HINDI
| MALAYALAM
| TELUGU.

(** The string value attached to each member of the enum. *)
Definition Language_value (l : Language) : string :=
  match l with
  | TAMIL => "Tamil"
  | ENGLISH => "English"
  | HINDI => "Hindi"
  | MALAYALAM => "Malayalam"
  | TELUGU => "Telugu"
  end.

(** The members of the enum in the order the source enumerates them. *)
Definition Language_members : list Language :=
  [TAMIL; ENGLISH; HINDI; MALAYALAM; TELUGU].

Inductive Classification : Type :=
| Human
| AI_Generated.

Module TechnicalDetails.
Record t : Type := mk {
  spectralAnomalies : bool;
  breathingPatterns : string;
  prosodyNaturalness : string
}.
End TechnicalDetails.

(** [interface AnalysisResult].  The component only stores and displays the
    payload; [confidence] is kept as an integer percentage. *)
Module AnalysisResult.
Record t : Type := mk {
  classification : Classification;
  confidence : Z;
  language : string;
  reasoning : list string;
  technicalDetails : TechnicalDetails.t
}.
End AnalysisResult.

(** ['pending' | 'completed' | 'error'] *)
Inductive Status : Type :=
| pending
| completed
| error.

(** [interface ScanRecord] *)
Module ScanRecord.
Record t : Type := mk {
  id : string;
  timestamp : Z;
  fileName : string;
  language : Language;
  result : option AnalysisResult.t;
  status : Status
}.

(** [{ ...rec, status: 'completed', result }] *)
Definition with_completed (rec : t) (r : AnalysisResult.t) : t :=
  mk (id rec) (timestamp rec) (fileName rec) (language rec) (Some r) completed.

(** [{ ...rec, status: 'error' }] *)
Definition with_error (rec : t) : t :=
  mk (id rec) (timestamp rec) (fileName rec) (language rec) (result rec) error.

(** The fields no object spread of the component ever overrides. *)
Definition fixed (rec : t) : string * Z * string * Language :=
  (id rec, timestamp rec, fileName rec, language rec).
End ScanRecord.

(** The part of a DOM [File] the component reads: [name], [type], [size]. *)
Module File.
Record t : Type := mk {
  name : string;
  type : string;
  size : Z
}.
End File.

(** A rejection reason.  The component never inspects it. *)
Inductive Error : Type :=
| ReadError (detail : string)
| AnalysisError (detail : string).

(** ** Component state *)

(** The [useState] cells and the [useRef] of [App], together with the
    developer console.  [fileInputRef] is [None] while [ref.current] is
    null and otherwise holds the [value] of the input element. *)
Record AppState : Type := mkApp {
  selectedLanguage : Language;
  isAnalyzing : bool;
  history : list ScanRecord.t;
  currentFile : option File.t;
  fileInputRef : option string;
  console : list Error
}.

(** State on first render, once the input element is mounted. *)
Definition initial : AppState :=
  {| selectedLanguage := ENGLISH;
     isAnalyzing := false;
     history := [];
     currentFile := None;
     fileInputRef := Some EmptyString;
     console := [] |}.

(** ** A state monad with rejections *)

Definition M (A : Type) : Type := AppState -> AppState * (Error + A).

Definition ret {A} (a : A) : M A := fun s => (s, inr a).

Definition bind {A B} (m : M A) (k : A -> M B) : M B :=
  fun s =>
    match m s with
    | (s1, inl e) => (s1, inl e)
    | (s1, inr a) => k a s1
    end.

Notation "x <- m ;; k" := (bind m (fun x => k))
  (at level 61, m at next level, right associativity).
Notation "m ;; k" := (bind m (fun _ => k))
  (at level 61, right associativity).

Definition throw {A} (e : Error) : M A := fun s => (s, inl e).

(** [await p] once [p] has settled: the value, or the reason thrown. *)
Definition await {A} (settled : Error + A) : M A :=
  match settled with
  | inl e => throw e
  | inr a => ret a
  end.

(** [try { body } catch (error) { handler }] *)
Definition try_catch {A} (body : M A) (handler : Error -> M A) : M A :=
  fun s =>
    match body s with
    | (s1, inl e) => handler e s1
    | (s1, inr a) => (s1, inr a)
    end.

(** [try { body } finally { fin }]: [fin] always runs; a throw of [fin]
    replaces the completion of [body]. *)
Definition try_finally {A} (body : M A) (fin : M unit) : M A :=
  fun s =>
    match body s with
    | (s1, r) =>
        match fin s1 with
        | (s2, inl e) => (s2, inl e)
        | (s2, inr _) => (s2, r)
        end
    end.

Definition gets {A} (f : AppState -> A) : M A := fun s => (s, inr (f s)).

Definition setSelectedLanguage (l : Language) : M unit :=
  fun s => (mkApp l (isAnalyzing s) (history s) (currentFile s)
              (fileInputRef s) (console s), inr tt).

Definition setIsAnalyzing (b : bool) : M unit :=
  fun s => (mkApp (selectedLanguage s) b (history s) (currentFile s)
              (fileInputRef s) (console s), inr tt).

(** [setHistory(prev => f(prev))] *)
Definition setHistory (f : list ScanRecord.t -> list ScanRecord.t) : M unit :=
  fun s => (mkApp (selectedLanguage s) (isAnalyzing s) (f (history s))
              (currentFile s) (fileInputRef s) (console s), inr tt).

Definition setCurrentFile (f : option File.t) : M unit :=
  fun s => (mkApp (selectedLanguage s) (isAnalyzing s) (history s) f
              (fileInputRef s) (console s), inr tt).

(** [if (fileInputRef.current) fileInputRef.current.value = v] *)
Definition setFileInputValue (v : string) : M unit :=
  fun s => (mkApp (selectedLanguage s) (isAnalyzing s) (history s)
              (currentFile s)
              (match fileInputRef s with Some _ => Some v | None => None end)
              (console s), inr tt).

(** [console.error("Analysis failed:", error)] *)
Definition console_error (e : Error) : M unit :=
  fun s => (mkApp (selectedLanguage s) (isAnalyzing s) (history s)
              (currentFile s) (fileInputRef s) (console s ++ [e]), inr tt).

(** ** Handlers *)

(** [e.target.files?.[0]]: [files] may be null, or an empty list. *)
Definition first_file (files : option (list File.t)) : option File.t :=
  match files with
  | Some (file :: _) => Some file
  | _ => None
  end.

Definition handleFileUpload (files : option (list File.t)) : M unit :=
  match first_file files with
  | Some file => setCurrentFile (Some file)
  | None => ret tt
  end.

(** The closure of a suspended [runAnalysis]: the three variables its
    continuation reads, and where it is suspended. *)
Inductive Phase : Type :=
| AwaitEncode
| AwaitInference (base64 : string).

Record Task : Type := mkTask {
  newRecordId : string;
  taskFile : File.t;
  taskLanguage : Language;
  phase : Phase
}.

(** [runAnalysis] from its entry to the first [await].  [randomUUID] and
    [now] are what [crypto.randomUUID()] and [Date.now()] return.  The
    result is the suspended task, or [None] after the early return. *)
Definition runAnalysis (randomUUID : string) (now : Z) : M (option Task) :=
  file <- gets currentFile ;;
  match file with
  | None => ret None
  | Some currentFile =>
      setIsAnalyzing true ;;
      lang <- gets selectedLanguage ;;
      let newRecordId := randomUUID in
      let newRecord :=
        {| ScanRecord.id := newRecordId;
           ScanRecord.timestamp := now;
           ScanRecord.fileName := File.name currentFile;
           ScanRecord.language := lang;
           ScanRecord.status := pending;
           ScanRecord.result := None |} in
      setHistory (fun prev => newRecord :: prev) ;;
      ret (Some (mkTask newRecordId currentFile lang AwaitEncode))
  end.

(** The function mapped over the store on success. *)
Definition complete_by_id (newRecordId : string) (r : AnalysisResult.t)
  (rec : ScanRecord.t) : ScanRecord.t :=
  if String.eqb (ScanRecord.id rec) newRecordId
  then ScanRecord.with_completed rec r
  else rec.

(** The function mapped over the store in the [catch] block. *)
Definition fail_by_id (newRecordId : string) (rec : ScanRecord.t)
  : ScanRecord.t :=
  if String.eqb (ScanRecord.id rec) newRecordId
  then ScanRecord.with_error rec
  else rec.

(** The [try]/[catch]/[finally] statement of [runAnalysis].  [base64] is how
    [convertToBase64(currentFile)] settled and [analyzeVoiceSample] how the
    inference call settles for given arguments; nothing of the component runs
    between the two awaits, so the statement is evaluated when the last
    awaited promise settles. *)
Definition runAnalysis_resume (t : Task) (base64 : Error + string)
  (analyzeVoiceSample : string -> Language -> string -> Error + AnalysisResult.t)
  : M unit :=
  try_finally
    (try_catch
       (base64 <- await base64 ;;
        result <- await (analyzeVoiceSample base64 (taskLanguage t)
                           (File.type (taskFile t))) ;;
        setHistory (map (complete_by_id (newRecordId t) result)))
       (fun error =>
          console_error error ;;
          setHistory (map (fail_by_id (newRecordId t)))))
    (setIsAnalyzing false ;;
     setCurrentFile None ;;
     setFileInputValue EmptyString).

(** ** The page as a transition system *)

(** The component state, the suspended invocations of [runAnalysis] in the
    order they were started, and the rejections of promises returned by
    handlers (nobody awaits those: [onClick={runAnalysis}]). *)
Record Sys : Type := mkSys {
  app : AppState;
  inflight : list Task;
  unhandled : list Error
}.

Definition boot : Sys := mkSys initial [] [].

Inductive event : Type :=
| Change (value : string) (files : option (list File.t))
| SelectLanguage (l : Language)
| RemoveFile
| RunAnalysis (randomUUID : string) (now : Z)
| EncodeSettled (k : nat) (base64 : Error + string)
| InferenceSettled (k : nat) (result : Error + AnalysisResult.t).

(** Run a handler on the component state; a rejection that escapes the
    handler is recorded as unhandled. *)
Definition exec {A} (m : M A) (s : Sys) : Sys * option A :=
  match m (app s) with
  | (a, inl e) => (mkSys a (inflight s) (unhandled s ++ [e]), None)
  | (a, inr v) => (mkSys a (inflight s) (unhandled s), Some v)
  end.

Definition remove_nth {A} (k : nat) (l : list A) : list A :=
  firstn k l ++ skipn (S k) l.

Definition replace_nth {A} (k : nat) (x : A) (l : list A) : list A :=
  firstn k l ++ x :: skipn (S k) l.

Definition with_inflight (s : Sys) (l : list Task) : Sys :=
  mkSys (app s) l (unhandled s).

(** One turn of the event loop.
    - [Change]: the browser has put [value] in the input element and calls
      [handleFileUpload] with the element's file list;
    - [SelectLanguage], [RemoveFile]: [onSelect={setSelectedLanguage}] and
      [onClick={() => setCurrentFile(null)}];
    - [RunAnalysis]: [runAnalysis] up to its first await, with what
      [crypto.randomUUID()] and [Date.now()] returned;
    - [EncodeSettled k]: the promise of [convertToBase64] that the [k]-th
      suspended invocation awaits has settled; when fulfilled the invocation
      calls [analyzeVoiceSample] and is suspended again, when rejected its
      [catch] and [finally] blocks run (the inference call is never made);
    - [InferenceSettled k]: the promise of [analyzeVoiceSample] has settled
      and the rest of the [try] statement runs.
    An event for a promise nobody awaits is ignored. *)
Definition step (s : Sys) (e : event) : Sys :=
  match e with
  | Change value files =>
      fst (exec (setFileInputValue value ;; handleFileUpload files) s)
  | SelectLanguage l => fst (exec (setSelectedLanguage l) s)
  | RemoveFile => fst (exec (setCurrentFile None) s)
  | RunAnalysis randomUUID now =>
      match exec (runAnalysis randomUUID now) s with
      | (s1, Some (Some t)) => with_inflight s1 (inflight s1 ++ [t])
      | (s1, _) => s1
      end
  | EncodeSettled k base64 =>
      match nth_error (inflight s) k with
      | Some t =>
          match phase t, base64 with
          | AwaitEncode, inr b =>
              with_inflight s
                (replace_nth k
                   (mkTask (newRecordId t) (taskFile t) (taskLanguage t)
                      (AwaitInference b))
                   (inflight s))
          | AwaitEncode, inl err =>
              fst (exec (runAnalysis_resume t (inl err) (fun _ _ _ => inl err))
                     (with_inflight s (remove_nth k (inflight s))))
          | AwaitInference _, _ => s
          end
      | None => s
      end
  | InferenceSettled k result =>
      match nth_error (inflight s) k with
      | Some t =>
          match phase t with
          | AwaitInference b =>
              fst (exec (runAnalysis_resume t (inr b) (fun _ _ _ => result))
                     (with_inflight s (remove_nth k (inflight s))))
          | AwaitEncode => s
          end
      | None => s
      end
  end.

Fixpoint run (s : Sys) (tr : list event) : Sys :=
  match tr with
  | [] => s
  | e :: tr' => run (step s e) tr'
  end.

Definition ids (h : list ScanRecord.t) : list string :=
  map ScanRecord.id h.

Definition mem (x : string) (l : list string) : bool :=
  existsb (String.eqb x) l.

(** [crypto.randomUUID()] is assumed never to repeat an identifier of the
    session: an event is admissible when the identifier it would give a new
    record is not yet in the store. *)
Definition fresh_event (s : Sys) (e : event) : bool :=
  match e with
  | RunAnalysis randomUUID _ =>
      match currentFile (app s) with
      | Some _ => negb (mem randomUUID (ids (history (app s))))
      | None => true
      end
  | _ => true
  end.

Fixpoint fresh_trace (s : Sys) (tr : list event) : bool :=
  match tr with
  | [] => true
  | e :: tr' => fresh_event s e && fresh_trace (step s e) tr'
  end.

(** The first record of the store carrying a given identifier. *)
Definition find_record (i : string) (h : list ScanRecord.t)
  : option ScanRecord.t :=
  find (fun rec => String.eqb (ScanRecord.id rec) i) h.

Definition terminal (st : Status) : bool :=
  match st with
  | pending => false
  | completed | error => true
  end.

(** ** Reading an event *)

(** The input element after [fileInputRef.current.value = ''] under the
    null guard. *)
Definition cleared_input (v : option string) : option string :=
  match v with
  | Some _ => Some EmptyString
  | None => None
  end.

(** The function a settling event maps over the store. *)
Definition reconcile (i : string) (o : Error + AnalysisResult.t)
  : ScanRecord.t -> ScanRecord.t :=
  match o with
  | inr r => complete_by_id i r
  | inl _ => fail_by_id i
  end.

(** The component state after the [try] statement of the invocation that
    created record [i] has run to its end. *)
Definition reconciled (i : string) (o : Error + AnalysisResult.t)
  (a : AppState) : AppState :=
  mkApp (selectedLanguage a) false
    (map (reconcile i o) (history a))
    None (cleared_input (fileInputRef a))
    (match o with
     | inr _ => console a
     | inl err => console a ++ [err]
     end).

(** The invocation whose [try] statement an event brings to its end, with
    its position among the suspended ones and what the awaited promise
    settled to. *)
Definition settles (s : Sys) (e : event)
  : option (nat * Task * (Error + AnalysisResult.t)) :=
  match e with
  | EncodeSettled k (inl err) =>
      match nth_error (inflight s) k with
      | Some t =>
          match phase t with
          | AwaitEncode => Some (k, t, inl err)
          | AwaitInference _ => None
          end
      | None => None
      end
  | InferenceSettled k r =>
      match nth_error (inflight s) k with
      | Some t =>
          match phase t with
          | AwaitInference _ => Some (k, t, r)
          | AwaitEncode => None
          end
      | None => None
      end
  | _ => None
  end.

(** What the continuation of a task reads of its closure. *)
Definition closure (t : Task) : string * File.t * Language :=
  (newRecordId t, taskFile t, taskLanguage t).

(** The [newRecordId] of a closure. *)
Definition closure_id (c : string * File.t * Language) : string :=
  fst (fst c).

(** What the suspended invocations captured, in the order they started. *)
Definition closures (s : Sys) : list (string * File.t * Language) :=
  map closure (inflight s).

(** The ids of the records that a suspended invocation will reconcile. *)
Definition task_ids (s : Sys) : list string :=
  map closure_id (closures s).

(** ** The invariant of a session *)

(** Identifiers are unique in the store and among the suspended
    invocations; the record of a suspended invocation is stored, still
    pending, and carries what the invocation captured; a record that is not
    completed has no result. *)
Record Inv (s : Sys) : Prop := mkInv {
  inv_ids : NoDup (ids (history (app s)));
  inv_tasks : NoDup (map closure_id (closures s));
  inv_stored :
    forall c, In c (closures s) -> In (closure_id c) (ids (history (app s)));
  inv_pending :
    forall c r, In c (closures s) -> In r (history (app s)) ->
      ScanRecord.id r = closure_id c ->
      ScanRecord.status r = pending /\ ScanRecord.result r = None /\
      ScanRecord.fileName r = File.name (snd (fst c)) /\
      ScanRecord.language r = snd c;
  inv_result :
    forall r, In r (history (app s)) ->
      ScanRecord.status r <> completed -> ScanRecord.result r = None
}.

(** A state of a session in which [crypto.randomUUID] never repeated. *)
Definition reachable (s : Sys) : Prop :=
  exists tr, fresh_trace boot tr = true /\ run boot tr = s.

(** ** Whole submissions *)

(** How the two awaited promises of one invocation settle. *)
Inductive Outcome : Type :=
| EncodeFails (err : Error)
| InferenceFails (base64 : string) (err : Error)
| Succeeds (base64 : string) (result : AnalysisResult.t).

(** The settling events of the invocation suspended at position [k]. *)
Definition outcome_events (k : nat) (o : Outcome) : list event :=
  match o with
  | EncodeFails err => [EncodeSettled k (inl err)]
  | InferenceFails b err => [EncodeSettled k (inr b); InferenceSettled k (inl err)]
  | Succeeds b r => [EncodeSettled k (inr b); InferenceSettled k (inr r)]
  end.

(** One submission by the user: pick a language, pick a file, press the
    button, and wait for the outcome. *)
Record Submission : Type := mkSubmission {
  sub_language : Language;
  sub_value : string;
  sub_file : File.t;
  sub_uuid : string;
  sub_now : Z;
  sub_outcome : Outcome
}.

(** The events of one submission made while nothing else is suspended. *)
Definition submission_events (x : Submission) : list event :=
  [SelectLanguage (sub_language x);
   Change (sub_value x) (Some [sub_file x]);
   RunAnalysis (sub_uuid x) (sub_now x)]
  ++ outcome_events 0 (sub_outcome x).

(** Submissions made one after the other, each settled before the next. *)
Definition sequential (subs : list Submission) : list event :=
  flat_map submission_events subs.

(** The fixed fields of the record a submission creates. *)
Definition submitted (x : Submission) : string * Z * string * Language :=
  (sub_uuid x, sub_now x, File.name (sub_file x), sub_language x).

(** The flags of [after] are those the [finally] block leaves, the input
    element of [before] has been emptied, and [runAnalysis] does nothing
    on [after]. *)
Definition is_reset (before after : Sys) : Prop :=
  isAnalyzing (app after) = false /\
  currentFile (app after) = None /\
  fileInputRef (app after) = cleared_input (fileInputRef (app before)) /\
  forall randomUUID now, step after (RunAnalysis randomUUID now) = after.

(** ** The encoder ([convertToBase64]) *)

(** [s.split(sep)] of the platform, for a separator of one character. *)
Fixpoint split_on (sep : ascii) (s : string) : list string :=
  match s with
  | EmptyString => [EmptyString]
  | String c s' =>
      if Ascii.eqb c sep then EmptyString :: split_on sep s'
      else
        match split_on sep s' with
        | piece :: rest => String c piece :: rest
        | [] => [String c EmptyString]
        end
  end.

(** Whether a character occurs in a string. *)
Fixpoint occurs (c : ascii) (s : string) : bool :=
  match s with
  | EmptyString => false
  | String c' s' => Ascii.eqb c' c || occurs c s'
  end.

Definition comma : ascii := ","%char.

(** [(reader.result as string).split(',')[1]]; [None] stands for
    [undefined]. *)
Definition base64String (result : string) : option string :=
  nth_error (split_on comma result) 1.

(** What the [FileReader] reports after [readAsDataURL(file)]. *)
Inductive ReaderEvent : Type :=
| onload (result : string)
| onerror (err : Error).

(** How the promise of [convertToBase64] settles on a reader event. *)
Definition convertToBase64 (ev : ReaderEvent) : Error + option string :=
  match ev with
  | onload result => inr (base64String result)
  | onerror err => inl err
  end.

(** ** What is rendered *)

(** The button [{currentFile && <button onClick={runAnalysis}
    disabled={isAnalyzing}>}]: [None] when it is not rendered. *)
Record ButtonView : Type := mkButton {
  disabled : bool;
  label : string
}.

Definition analyze_button (a : AppState) : option ButtonView :=
  match currentFile a with
  | Some _ =>
      Some (mkButton (isAnalyzing a)
              (if isAnalyzing a then "Extracting Features..."
               else "Initialize Analysis Pipeline"))
  | None => None
  end.

(** A click reaches [runAnalysis] when the button is there and enabled. *)
Definition clickable (a : AppState) : bool :=
  match analyze_button a with
  | Some b => negb (disabled b)
  | None => false
  end.

(** The colour of the status badge of a history card. *)
Inductive BadgeStyle : Type :=
| badge_green
| badge_red
| badge_blue_pulse.

Definition status_badge (record : ScanRecord.t) : BadgeStyle :=
  match ScanRecord.status record with
  | completed => badge_green
  | error => badge_red
  | pending => badge_blue_pulse
  end.

(** [{record.status === 'completed' && record.result && (...)}]: the result
    the panel of a card displays, if the panel is rendered. *)
Definition result_panel (record : ScanRecord.t) : option AnalysisResult.t :=
  match ScanRecord.status record with
  | completed => ScanRecord.result record
  | _ => None
  end.

(** [{record.status === 'error' && <p>...</p>}] *)
Definition error_message (record : ScanRecord.t) : bool :=
  match ScanRecord.status record with
  | error => true
  | _ => false
  end.

(** The [key] React is given for each card of [history.map]. *)
Definition card_keys (a : AppState) : list string :=
  map ScanRecord.id (history a).

(** ** Sessions driven through the rendered controls *)

(** An event the user can cause: [runAnalysis] is only reachable through
    the button; the other events are not restricted. *)
Definition ui_event (s : Sys) (e : event) : bool :=
  match e with
  | RunAnalysis _ _ => clickable (app s)
  | _ => true
  end.

Fixpoint ui_trace (s : Sys) (tr : list event) : bool :=
  match tr with
  | [] => true
  | e :: tr' => ui_event s e && ui_trace (step s e) tr'
  end.

Definition Status_eqb (a b : Status) : bool :=
  match a, b with
  | pending, pending | completed, completed | error, error => true
  | _, _ => false
  end.

(** The number of stored records with a given status. *)
Definition count_status (st : Status) (h : list ScanRecord.t) : nat :=
  length (filter (fun r => Status_eqb (ScanRecord.status r) st) h).

(** The record a submission has left in the store once it is settled. *)
Definition settled_record (x : Submission) : ScanRecord.t :=
  match sub_outcome x with
  | Succeeds _ r =>
      ScanRecord.mk (sub_uuid x) (sub_now x) (File.name (sub_file x))
        (sub_language x) (Some r) completed
  | _ =>
      ScanRecord.mk (sub_uuid x) (sub_now x) (File.name (sub_file x))
        (sub_language x) None error
  end.

(** ** Kinds of event and counting invariants *)

(** The three kinds of event. *)
Inductive step_kind (s : Sys) (e : event) : Prop :=
| kind_settle k t o :
    settles s e = Some (k, t, o) ->
    step s e = mkSys (reconciled (newRecordId t) o (app s))
                 (remove_nth k (inflight s)) (unhandled s) ->
    nth_error (inflight s) k = Some t ->
    step_kind s e
| kind_start u n f :
    e = RunAnalysis u n ->
    currentFile (app s) = Some f ->
    step s e =
      mkSys
        (mkApp (selectedLanguage (app s)) true
           (ScanRecord.mk u n (File.name f) (selectedLanguage (app s))
              None pending :: history (app s))
           (Some f) (fileInputRef (app s)) (console (app s)))
        (inflight s ++ [mkTask u f (selectedLanguage (app s)) AwaitEncode])
        (unhandled s) ->
    step_kind s e
| kind_quiet :
    settles s e = None ->
    isAnalyzing (app (step s e)) = isAnalyzing (app s) ->
    history (app (step s e)) = history (app s) ->
    console (app (step s e)) = console (app s) ->
    length (inflight (step s e)) = length (inflight s) ->
    step_kind s e.

(** One pending record per suspended invocation, one console line per
    failed record. *)
Definition counted (s : Sys) : Prop :=
  count_status pending (history (app s)) = length (inflight s) /\
  count_status error (history (app s)) = length (console (app s)).

(** The component is idle: nothing suspended, nothing staged, flag down. *)
Definition idle (s : Sys) : Prop :=
  inflight s = [] /\ isAnalyzing (app s) = false /\ currentFile (app s) = None.

(** ** Sample sessions *)

(** The file and the result of the scenario of the specification. *)
Definition sample_wav : File.t := File.mk "sample.wav" "audio/wav" 2097152.

Definition sample_result : AnalysisResult.t :=
  AnalysisResult.mk Human 92 "Hindi" ["natural breath noise"]
    (TechnicalDetails.mk false "regular" "high").

(** Select Hindi, stage the file, press the button. *)
Definition scenario_upload : list event :=
  [SelectLanguage HINDI;
   Change "C:\fakepath\sample.wav" (Some [sample_wav]);
   RunAnalysis "id-1" 1000].

(** A later submission whose inference call is rejected. *)
Definition second_submission : list event :=
  [Change "other.mp3" (Some [File.mk "other.mp3" "audio/mpeg" 4096]);
   RunAnalysis "id-2" 2000;
   EncodeSettled 0 (inr "SUQz");
   InferenceSettled 0 (inl (AnalysisError "network"))].

(** Two invocations suspended at once. *)
Definition two_pending : Sys :=
  run boot
    [Change "a.wav" (Some [File.mk "a.wav" "audio/wav" 10]);
     RunAnalysis "id-a" 1;
     Change "b.wav" (Some [File.mk "b.wav" "audio/wav" 20]);
     RunAnalysis "id-b" 2].

(** Two submissions, the second a second later than the first. *)
Definition two_submissions : list Submission :=
  [mkSubmission HINDI "sample.wav" sample_wav "id-1" 1000
     (Succeeds "UklGRg==" sample_result);
   mkSubmission TAMIL "other.mp3" (File.mk "other.mp3" "audio/mpeg" 4096)
     "id-2" 2000 (EncodeFails (ReadError "unreadable"))].

(** Two invocations, both awaiting the inference call. *)
Definition two_inferring : Sys :=
  run two_pending [EncodeSettled 0 (inr "QQ=="); EncodeSettled 1 (inr "Qg==")].

(** * Proofs *)

(** ** The scenarios of the specification, evaluated *)

Example scenario_pending :
  history (app (run boot scenario_upload)) =
  [ScanRecord.mk "id-1" 1000 "sample.wav" HINDI None pending].
Proof. reflexivity. Qed.

Example scenario_completed :
  app (run boot (scenario_upload ++
         [EncodeSettled 0 (inr "UklGRg=="); InferenceSettled 0 (inr sample_result)]))
  = mkApp HINDI false
      [ScanRecord.mk "id-1" 1000 "sample.wav" HINDI (Some sample_result) completed]
      None (Some EmptyString) [].
Proof. reflexivity. Qed.

Example scenario_rejected :
  run boot (scenario_upload ++
         [EncodeSettled 0 (inr "UklGRg==");
          InferenceSettled 0 (inl (AnalysisError "network"))])
  = mkSys
      (mkApp HINDI false
         [ScanRecord.mk "id-1" 1000 "sample.wav" HINDI None error]
         None (Some EmptyString) [AnalysisError "network"])
      [] [].
Proof. reflexivity. Qed.

(** ** What an event does *)

Lemma resume_encode_rejected t err f a :
  runAnalysis_resume t (inl err) f a =
  (reconciled (newRecordId t) (inl err) a, inr tt).
Proof. reflexivity. Qed.

Lemma resume_inference_settled t b o a :
  runAnalysis_resume t (inr b) (fun _ _ _ => o) a =
  (reconciled (newRecordId t) o a, inr tt).
Proof. destruct o; reflexivity. Qed.

Lemma step_settles s e k t o :
  settles s e = Some (k, t, o) ->
  step s e =
  mkSys (reconciled (newRecordId t) o (app s))
    (remove_nth k (inflight s)) (unhandled s)
  /\ nth_error (inflight s) k = Some t.
Proof.
  unfold settles, step.
  destruct e as [v fs|l| |u n|j [err|b]|j r]; try discriminate.
  - destruct (nth_error (inflight s) j) as [t'|] eqn:Hn; try discriminate.
    destruct (phase t') eqn:Hp; try discriminate.
    intros H; injection H as <- <- <-. split; [|exact Hn].
    unfold exec, with_inflight. cbn [app inflight unhandled].
    rewrite resume_encode_rejected. reflexivity.
  - destruct (nth_error (inflight s) j) as [t'|] eqn:Hn; try discriminate.
    destruct (phase t') eqn:Hp; try discriminate.
    intros H; injection H as <- <- <-. split; [|exact Hn].
    unfold exec, with_inflight. cbn [app inflight unhandled].
    rewrite resume_inference_settled. reflexivity.
Qed.

Lemma map_replace_nth {A B} (g : A -> B) k x l y :
  nth_error l k = Some y -> g x = g y ->
  map g (replace_nth k x l) = map g l.
Proof.
  unfold replace_nth. revert k.
  induction l as [|a l IH]; intros [|k]; simpl; try discriminate.
  - intros H E. injection H as ->. now rewrite E.
  - intros H E. f_equal. now apply IH.
Qed.

(** An event that ends no [try] statement either starts an invocation on a
    staged file, prepending one record, or leaves the store alone. *)
Lemma step_not_settles s e :
  settles s e = None ->
  (exists u n f,
      e = RunAnalysis u n /\ currentFile (app s) = Some f /\
      history (app (step s e)) =
        ScanRecord.mk u n (File.name f) (selectedLanguage (app s)) None pending
        :: history (app s) /\
      inflight (step s e) =
        inflight s ++ [mkTask u f (selectedLanguage (app s)) AwaitEncode])
  \/ (history (app (step s e)) = history (app s) /\
      map closure (inflight (step s e)) = map closure (inflight s)).
Proof.
  unfold settles, step.
  destruct e as [v fs|l| |u n|j [err|b]|j r]; intros H.
  - right. unfold exec, handleFileUpload, bind; simpl.
    destruct (first_file fs); simpl; auto.
  - right. simpl. auto.
  - right. simpl. auto.
  - unfold exec, runAnalysis, bind, gets. simpl.
    destruct (currentFile (app s)) as [f|] eqn:Hf; simpl.
    + left. exists u, n, f. auto.
    + right. auto.
  - right. destruct (nth_error (inflight s) j) as [t|] eqn:Hn; auto.
    destruct (phase t); try discriminate; auto.
  - right. destruct (nth_error (inflight s) j) as [t|] eqn:Hn; auto.
    destruct (phase t) eqn:Hp; auto. simpl. split; auto.
    now apply map_replace_nth with (y := t).
  - right. destruct (nth_error (inflight s) j) as [t|] eqn:Hn; auto.
    destruct (phase t); try discriminate; auto.
Qed.

(** ** Lists with one position removed *)

Section Positions.
Context {A : Type}.

Lemma remove_nth_middle (l1 l2 : list A) a :
  remove_nth (length l1) (l1 ++ a :: l2) = l1 ++ l2.
Proof.
  unfold remove_nth. induction l1 as [|b l1 IH]; simpl.
  - reflexivity.
  - f_equal. exact IH.
Qed.

Lemma nth_error_middle (l : list A) k x :
  nth_error l k = Some x ->
  exists l1 l2, l = l1 ++ x :: l2 /\ remove_nth k l = l1 ++ l2.
Proof.
  intros H. destruct (nth_error_split l k H) as (l1 & l2 & -> & <-).
  exists l1, l2. split; [reflexivity | apply remove_nth_middle].
Qed.

Lemma map_remove_nth {B} (g : A -> B) k l :
  map g (remove_nth k l) = remove_nth k (map g l).
Proof.
  unfold remove_nth. now rewrite map_app, <- firstn_map, <- skipn_map.
Qed.

Lemma In_remove_nth k (l : list A) x :
  In x (remove_nth k l) -> In x l.
Proof.
  unfold remove_nth. revert k.
  induction l as [|a l IH]; intros [|k]; simpl; auto.
  intros [H|H]; eauto.
Qed.

Lemma NoDup_remove_nth k (l : list A) x :
  NoDup l -> nth_error l k = Some x ->
  NoDup (remove_nth k l) /\ ~ In x (remove_nth k l).
Proof.
  intros Hd Hn. destruct (nth_error_middle l k x Hn) as (l1 & l2 & -> & ->).
  split; [eapply NoDup_remove_1 | eapply NoDup_remove_2]; eauto.
Qed.

End Positions.

(** ** Identifiers in the store *)

Lemma mem_In x l : mem x l = true <-> In x l.
Proof.
  unfold mem. rewrite existsb_exists. split.
  - intros (y & Hy & E). apply String.eqb_eq in E. now subst.
  - intros H. exists x. split; [exact H | apply String.eqb_refl].
Qed.

Lemma mem_false x l : mem x l = false <-> ~ In x l.
Proof.
  rewrite <- mem_In. destruct (mem x l); split; congruence.
Qed.

Lemma complete_by_id_id i r rec :
  ScanRecord.fixed (complete_by_id i r rec) = ScanRecord.fixed rec.
Proof. unfold complete_by_id. now destruct (String.eqb _ _). Qed.

Lemma fail_by_id_id i rec :
  ScanRecord.fixed (fail_by_id i rec) = ScanRecord.fixed rec.
Proof. unfold fail_by_id. now destruct (String.eqb _ _). Qed.

Lemma complete_by_id_other i r rec :
  ScanRecord.id rec <> i -> complete_by_id i r rec = rec.
Proof.
  unfold complete_by_id. intros H.
  destruct (String.eqb_spec (ScanRecord.id rec) i); [contradiction|reflexivity].
Qed.

Lemma fail_by_id_other i rec :
  ScanRecord.id rec <> i -> fail_by_id i rec = rec.
Proof.
  unfold fail_by_id. intros H.
  destruct (String.eqb_spec (ScanRecord.id rec) i); [contradiction|reflexivity].
Qed.

Lemma complete_by_id_same i r rec :
  ScanRecord.id rec = i ->
  complete_by_id i r rec = ScanRecord.with_completed rec r.
Proof. unfold complete_by_id. intros ->. now rewrite String.eqb_refl. Qed.

Lemma fail_by_id_same i rec :
  ScanRecord.id rec = i -> fail_by_id i rec = ScanRecord.with_error rec.
Proof. unfold fail_by_id. intros ->. now rewrite String.eqb_refl. Qed.

Lemma history_reconciled i o a :
  history (reconciled i o a) = map (reconcile i o) (history a).
Proof. reflexivity. Qed.

Lemma reconcile_fixed i o rec :
  ScanRecord.fixed (reconcile i o rec) = ScanRecord.fixed rec.
Proof. destruct o; [apply fail_by_id_id | apply complete_by_id_id]. Qed.

Lemma reconcile_id i o rec :
  ScanRecord.id (reconcile i o rec) = ScanRecord.id rec.
Proof.
  pose proof (reconcile_fixed i o rec) as H. unfold ScanRecord.fixed in H.
  congruence.
Qed.

Lemma reconcile_other i o rec :
  ScanRecord.id rec <> i -> reconcile i o rec = rec.
Proof.
  destruct o; [apply fail_by_id_other | apply complete_by_id_other].
Qed.

Lemma ids_reconcile i o h : ids (map (reconcile i o) h) = ids h.
Proof.
  unfold ids. rewrite map_map. apply map_ext. intros; apply reconcile_id.
Qed.

Lemma find_record_In i h r :
  find_record i h = Some r -> In r h /\ ScanRecord.id r = i.
Proof.
  unfold find_record. intros H. apply find_some in H as [H E].
  apply String.eqb_eq in E. auto.
Qed.

Lemma find_record_unique h r :
  NoDup (ids h) -> In r h -> find_record (ScanRecord.id r) h = Some r.
Proof.
  unfold find_record, ids. induction h as [|a h IH]; simpl; [tauto|].
  intros Hd [->|Hin].
  - now rewrite String.eqb_refl.
  - inversion Hd as [|? ? Hna Hd']; subst.
    destruct (String.eqb_spec (ScanRecord.id a) (ScanRecord.id r)) as [E|E].
    + exfalso. apply Hna. rewrite E. now apply in_map.
    + now apply IH.
Qed.

Lemma find_record_stored i h :
  In i (ids h) -> exists r, find_record i h = Some r.
Proof.
  unfold find_record, ids. induction h as [|a h IH]; simpl; [tauto|].
  intros [E|Hin].
  - exists a. apply String.eqb_eq in E. now rewrite E.
  - destruct (String.eqb (ScanRecord.id a) i); eauto.
Qed.

(** ** The invariant is kept *)

Lemma NoDup_snoc {A} (l : list A) x :
  NoDup l -> ~ In x l -> NoDup (l ++ [x]).
Proof.
  intros Hd Hx. apply NoDup_rev in Hd.
  rewrite <- (rev_involutive (l ++ [x])). apply NoDup_rev.
  rewrite rev_app_distr. simpl. constructor; [|exact Hd].
  now rewrite <- in_rev.
Qed.

Lemma Inv_boot : Inv boot.
Proof.
  constructor; simpl; try constructor; try tauto.
Qed.

Lemma In_closures s k t :
  nth_error (inflight s) k = Some t ->
  In (closure t) (closures s) /\
  nth_error (map closure_id (closures s)) k = Some (newRecordId t).
Proof.
  intros H. split.
  - apply in_map. eapply nth_error_In; eauto.
  - unfold closures. rewrite map_map.
    now apply (map_nth_error (fun t => closure_id (closure t))).
Qed.

Lemma Inv_settle s e k t o :
  Inv s -> settles s e = Some (k, t, o) -> Inv (step s e).
Proof.
  intros I Hs. destruct (step_settles _ _ _ _ _ Hs) as [-> Hn].
  destruct (In_closures _ _ _ Hn) as [Hc Hk].
  destruct (NoDup_remove_nth k _ _ (inv_tasks _ I) Hk) as [Hd Hout].
  assert (Hother : forall c, In c (remove_nth k (closures s)) ->
                             closure_id c <> newRecordId t).
  { intros c Hin E. apply Hout. rewrite <- E, <- map_remove_nth.
    now apply in_map. }
  constructor; unfold closures in *; cbn [app inflight];
    rewrite ?history_reconciled, ?ids_reconcile, ?map_remove_nth.
  - apply I.
  - exact Hd.
  - intros c Hin. apply I. eapply In_remove_nth. exact Hin.
  - intros c r' Hin Hr E.
    apply in_map_iff in Hr as (r & <- & Hr).
    rewrite reconcile_id in E.
    rewrite reconcile_other.
    + apply (inv_pending _ I c r); auto. eapply In_remove_nth; eauto.
    + rewrite E. now apply Hother.
  - intros r' Hr Hst. apply in_map_iff in Hr as (r & <- & Hr).
    destruct (string_dec (ScanRecord.id r) (newRecordId t)) as [E|E].
    + destruct o as [err|res]; simpl in *.
      * rewrite fail_by_id_same by exact E. simpl.
        apply (inv_pending _ I (closure t) r Hc Hr E).
      * rewrite complete_by_id_same in Hst by exact E. simpl in Hst.
        congruence.
    + rewrite reconcile_other in * by exact E. now apply I.
Qed.

Lemma Inv_step s e :
  Inv s -> fresh_event s e = true -> Inv (step s e).
Proof.
  intros I Hf. destruct (settles s e) as [[[k t] o]|] eqn:Hs.
  - eapply Inv_settle; eauto.
  - destruct (step_not_settles s e Hs)
      as [(u & n & f & -> & Hcf & Hh & Hi) | [Hh Hc]].
    + simpl in Hf. rewrite Hcf in Hf. apply negb_true_iff, mem_false in Hf.
      assert (Hnew : forall c, In c (closures s) -> closure_id c <> u).
      { intros c Hin E. apply Hf. rewrite <- E. now apply I. }
      constructor; unfold closures in *; rewrite ?Hh, ?Hi, ?map_app; simpl.
      * constructor; [exact Hf | apply I].
      * apply NoDup_snoc; [apply I|].
        intros Hin. apply in_map_iff in Hin as (c & E & Hin).
        now apply (Hnew c).
      * intros c Hin. apply in_app_or in Hin as [Hin|[<-|[]]].
        -- right. now apply I.
        -- now left.
      * intros c r Hin Hr E.
        apply in_app_or in Hin as [Hin|[<-|[]]]; destruct Hr as [<-|Hr].
        -- simpl in E. symmetry in E. now apply Hnew in E.
        -- now apply (inv_pending _ I c r).
        -- simpl. auto.
        -- exfalso. apply Hf. unfold closure_id, closure in E. simpl in E.
           rewrite <- E. now apply in_map.
      * intros r [<-|Hr] Hst; [reflexivity | now apply I].
    + constructor; unfold closures; rewrite ?Hh, ?Hc; apply I.
Qed.

Lemma Inv_run tr : forall s,
  Inv s -> fresh_trace s tr = true -> Inv (run s tr).
Proof.
  induction tr as [|e tr IH]; intros s I Hf; simpl in *; [exact I|].
  apply andb_true_iff in Hf as [He Hf]. apply IH; [|exact Hf].
  now apply Inv_step.
Qed.

Lemma reachable_Inv s : reachable s -> Inv s.
Proof.
  intros (tr & Hf & <-). apply Inv_run; [apply Inv_boot | exact Hf].
Qed.

Lemma run_app s tr1 tr2 : run s (tr1 ++ tr2) = run (run s tr1) tr2.
Proof. revert s. induction tr1; simpl; auto. Qed.

Lemma fresh_trace_app s tr1 tr2 :
  fresh_trace s (tr1 ++ tr2) =
  fresh_trace s tr1 && fresh_trace (run s tr1) tr2.
Proof.
  revert s. induction tr1 as [|e tr1 IH]; intros s; simpl; [reflexivity|].
  now rewrite IH, andb_assoc.
Qed.

Lemma reachable_run s tr :
  reachable s -> fresh_trace s tr = true -> reachable (run s tr).
Proof.
  intros (tr0 & Hf & <-) H. exists (tr0 ++ tr).
  now rewrite fresh_trace_app, Hf, run_app.
Qed.

(** No handler lets a rejection escape. *)
Lemma step_unhandled s e : unhandled (step s e) = unhandled s.
Proof.
  destruct (settles s e) as [[[k t] o]|] eqn:Hs.
  - now destruct (step_settles _ _ _ _ _ Hs) as [-> _].
  - clear Hs. unfold step.
    destruct e as [v fs|l| |u n|j [err|b]|j r]; simpl; auto.
    + unfold exec, handleFileUpload, bind; simpl.
      destruct (first_file fs); reflexivity.
    + unfold exec, runAnalysis, bind, gets; simpl.
      destruct (currentFile (app s)); reflexivity.
    + destruct (nth_error (inflight s) j) as [t|]; auto.
      destruct (phase t); reflexivity.
    + destruct (nth_error (inflight s) j) as [t|]; auto.
      destruct (phase t); reflexivity.
    + destruct (nth_error (inflight s) j) as [t|]; auto.
      destruct (phase t); [reflexivity|].
      unfold exec, with_inflight; cbn [app inflight unhandled].
      now rewrite resume_inference_settled.
Qed.

Lemma reachable_unhandled s : reachable s -> unhandled s = [].
Proof.
  intros (tr & _ & <-).
  assert (H : forall s0, unhandled (run s0 tr) = unhandled s0).
  { induction tr as [|e tr IH]; intros s0; simpl; [reflexivity|].
    now rewrite IH, step_unhandled. }
  now rewrite H.
Qed.

(** ** The fixed fields of the store *)

Lemma map_fixed_reconcile i o h :
  map ScanRecord.fixed (map (reconcile i o) h) = map ScanRecord.fixed h.
Proof.
  rewrite map_map. apply map_ext. intros; apply reconcile_fixed.
Qed.

Lemma step_fixed s e :
  exists pre, (length pre <= 1)%nat /\
    map ScanRecord.fixed (history (app (step s e))) =
    map ScanRecord.fixed (pre ++ history (app s)).
Proof.
  destruct (settles s e) as [[[k t] o]|] eqn:Hs.
  - destruct (step_settles _ _ _ _ _ Hs) as [-> _]. exists []. split; [simpl; lia|].
    cbn [app]. rewrite history_reconciled. apply map_fixed_reconcile.
  - destruct (step_not_settles s e Hs)
      as [(u & n & f & -> & Hcf & Hh & Hi) | [Hh Hc]].
    + rewrite Hh. eexists [_]. split; [simpl; lia | reflexivity].
    + rewrite Hh. exists []. split; [simpl; lia | reflexivity].
Qed.

Lemma run_fixed tr : forall s,
  exists pre,
    map ScanRecord.fixed (history (app (run s tr))) =
    map ScanRecord.fixed (pre ++ history (app s)).
Proof.
  induction tr as [|e tr IH]; intros s; simpl.
  - now exists [].
  - destruct (IH (step s e)) as (pre1 & H1).
    destruct (step_fixed s e) as (pre0 & _ & H0).
    exists (pre1 ++ pre0). rewrite H1, <- app_assoc, !map_app, H0, map_app.
    reflexivity.
Qed.

Lemma submission_step s x :
  inflight s = [] ->
  inflight (run s (submission_events x)) = [] /\
  map ScanRecord.fixed (history (app (run s (submission_events x)))) =
  submitted x :: map ScanRecord.fixed (history (app s)).
Proof.
  destruct s as [a l un]. simpl. intros ->.
  destruct x as [lang v f u n [err|b err|b res]]; unfold submitted; cbn.
  - split; [reflexivity|]. rewrite fail_by_id_id.
    f_equal. apply (map_fixed_reconcile u (inl err)).
  - split; [reflexivity|]. rewrite fail_by_id_id.
    f_equal. apply (map_fixed_reconcile u (inl err)).
  - split; [reflexivity|]. rewrite complete_by_id_id.
    f_equal. apply (map_fixed_reconcile u (inr res)).
Qed.

Lemma sequential_fixed subs : forall s,
  inflight s = [] ->
  inflight (run s (sequential subs)) = [] /\
  map ScanRecord.fixed (history (app (run s (sequential subs)))) =
  rev (map submitted subs) ++ map ScanRecord.fixed (history (app s)).
Proof.
  induction subs as [|x subs IH]; intros s Hs.
  - simpl. auto.
  - change (sequential (x :: subs))
      with (submission_events x ++ sequential subs).
    rewrite run_app. destruct (submission_step s x Hs) as [Hi Hh].
    destruct (IH _ Hi) as [Hi' Hh']. split; [exact Hi'|].
    rewrite Hh', Hh. simpl. rewrite <- app_assoc. reflexivity.
Qed.

Lemma StronglySorted_snoc {A} (R : A -> A -> Prop) l a :
  StronglySorted R l -> Forall (fun x => R x a) l ->
  StronglySorted R (l ++ [a]).
Proof.
  induction 1 as [|b l Hs IH Hb]; intros Hf; simpl.
  - repeat constructor.
  - inversion Hf; subst. constructor; [now apply IH|].
    apply Forall_app. split; [exact Hb | now constructor].
Qed.

Lemma StronglySorted_rev_lt l :
  StronglySorted Z.lt l -> StronglySorted Z.gt (rev l).
Proof.
  induction 1 as [|a l Hs IH Ha]; simpl; [constructor|].
  apply StronglySorted_snoc; [exact IH|].
  apply Forall_rev. eapply Forall_impl; [|exact Ha].
  intros x Hx. simpl in Hx. lia.
Qed.

Lemma timestamps_of_fixed h :
  map ScanRecord.timestamp h =
  map (fun p => snd (fst (fst p))) (map ScanRecord.fixed h).
Proof. rewrite map_map. reflexivity. Qed.

(** ** Records that no suspended invocation owns *)

Lemma settled_step s e r :
  Inv s -> fresh_event s e = true ->
  In r (history (app s)) -> ~ In (ScanRecord.id r) (task_ids s) ->
  In r (history (app (step s e))) /\
  ~ In (ScanRecord.id r) (task_ids (step s e)).
Proof.
  unfold task_ids. intros I Hf Hr Hout.
  destruct (settles s e) as [[[k t] o]|] eqn:Hs.
  - destruct (step_settles _ _ _ _ _ Hs) as [-> Hn].
    destruct (In_closures _ _ _ Hn) as [_ Hk]. apply nth_error_In in Hk.
    unfold closures in *. cbn [app inflight]. rewrite history_reconciled.
    split.
    + apply in_map_iff. exists r. split; [|exact Hr].
      apply reconcile_other. intros E. apply Hout. now rewrite E.
    + rewrite !map_remove_nth. intros H. apply Hout.
      eapply In_remove_nth; eauto.
  - destruct (step_not_settles s e Hs)
      as [(u & n & f & -> & Hcf & Hh & Hi) | [Hh Hc]].
    + simpl in Hf. rewrite Hcf in Hf. apply negb_true_iff, mem_false in Hf.
      unfold closures in *. rewrite Hh, Hi, !map_app. split; [now right|].
      intros H. apply in_app_or in H as [H|[H|[]]]; [now apply Hout|].
      apply Hf. unfold closure_id, closure in H. simpl in H. rewrite H.
      now apply in_map.
    + unfold closures in *. rewrite Hh, Hc. auto.
Qed.

Lemma settled_run tr : forall s r,
  Inv s -> fresh_trace s tr = true ->
  In r (history (app s)) -> ~ In (ScanRecord.id r) (task_ids s) ->
  find_record (ScanRecord.id r) (history (app (run s tr))) = Some r.
Proof.
  induction tr as [|e tr IH]; intros s r I Hf Hr Hout; simpl in *.
  - apply find_record_unique; [apply I | exact Hr].
  - apply andb_true_iff in Hf as [He Hf].
    destruct (settled_step s e r I He Hr Hout) as [Hr' Hout'].
    apply IH; auto. now apply Inv_step.
Qed.

Lemma terminal_not_inflight s r :
  Inv s -> In r (history (app s)) ->
  terminal (ScanRecord.status r) = true ->
  ~ In (ScanRecord.id r) (task_ids s).
Proof.
  unfold task_ids. intros I Hr Ht H. apply in_map_iff in H as (c & E & Hc).
  destruct (inv_pending _ I c r Hc Hr (eq_sym E)) as [Hp _].
  rewrite Hp in Ht. discriminate.
Qed.

(** The record of a suspended invocation, as the invariant describes it. *)
Lemma record_of_task s k t :
  Inv s -> nth_error (inflight s) k = Some t ->
  exists r,
    find_record (newRecordId t) (history (app s)) = Some r /\
    In r (history (app s)) /\ ScanRecord.id r = newRecordId t /\
    ScanRecord.status r = pending /\ ScanRecord.result r = None /\
    ScanRecord.fileName r = File.name (taskFile t) /\
    ScanRecord.language r = taskLanguage t.
Proof.
  intros I Hn. destruct (In_closures _ _ _ Hn) as [Hc _].
  destruct (find_record_stored _ _ (inv_stored _ I _ Hc)) as (r & Hr).
  exists r. destruct (find_record_In _ _ _ Hr) as [Hin E].
  destruct (inv_pending _ I _ r Hc Hin E) as (? & ? & ? & ?). auto 8.
Qed.

(** After its [try] statement has run, an invocation is suspended no more. *)
Lemma settled_task_gone s e k t o :
  Inv s -> settles s e = Some (k, t, o) ->
  ~ In (newRecordId t) (task_ids (step s e)).
Proof.
  intros I Hs. destruct (step_settles _ _ _ _ _ Hs) as [-> Hn].
  destruct (In_closures _ _ _ Hn) as [_ Hk].
  destruct (NoDup_remove_nth k _ _ (inv_tasks _ I) Hk) as [_ Hout].
  unfold task_ids, closures in *. cbn [inflight].
  now rewrite !map_remove_nth.
Qed.

(** ** The two ends of an invocation *)

(** The synchronous part of [runAnalysis] on a staged file. *)
Lemma runAnalysis_staged s f randomUUID now :
  currentFile (app s) = Some f ->
  step s (RunAnalysis randomUUID now) =
  mkSys
    (mkApp (selectedLanguage (app s)) true
       (ScanRecord.mk randomUUID now (File.name f) (selectedLanguage (app s))
          None pending :: history (app s))
       (Some f) (fileInputRef (app s)) (console (app s)))
    (inflight s ++ [mkTask randomUUID f (selectedLanguage (app s)) AwaitEncode])
    (unhandled s).
Proof.
  intros Hf. unfold step, exec, runAnalysis, bind, gets. simpl.
  rewrite !Hf. reflexivity.
Qed.

Lemma runAnalysis_suspends s f randomUUID now :
  currentFile (app s) = Some f ->
  inflight (step s (RunAnalysis randomUUID now)) =
    inflight s ++ [mkTask randomUUID f (selectedLanguage (app s)) AwaitEncode] /\
  fileInputRef (app (step s (RunAnalysis randomUUID now))) =
    fileInputRef (app s).
Proof.
  intros Hf. rewrite (runAnalysis_staged s f randomUUID now Hf). auto.
Qed.

Lemma settle_resets s e k t o :
  settles s e = Some (k, t, o) -> is_reset s (step s e).
Proof.
  intros Hs. destruct (step_settles _ _ _ _ _ Hs) as [-> _].
  repeat split.
Qed.

Lemma nth_error_snoc {A} (l : list A) x :
  nth_error (l ++ [x]) (length l) = Some x.
Proof. induction l; simpl; auto. Qed.

Lemma replace_nth_snoc {A} (l : list A) x y :
  replace_nth (length l) y (l ++ [x]) = l ++ [y].
Proof.
  unfold replace_nth. induction l; simpl; [reflexivity|]. now f_equal.
Qed.

(** ** Properties stated by the specification *)

(** C1.  Invoking [runAnalysis] while a file is staged creates exactly one
    record: its id is the identifier just generated, its file name is the
    staged file's, its language the selected one, its status [pending] and
    its result null.  The record is placed first in the store, in the
    synchronous part of the handler: the invocation is left suspended at its
    first await.  When the generator returned an identifier that is not in
    the store, no other record carries it. *)
Theorem runAnalysis_prepends_pending_record s f randomUUID now :
  currentFile (app s) = Some f ->
  let newRecord :=
    ScanRecord.mk randomUUID now (File.name f) (selectedLanguage (app s))
      None pending in
  let s' := step s (RunAnalysis randomUUID now) in
  history (app s') = newRecord :: history (app s) /\
  length (history (app s')) = S (length (history (app s))) /\
  inflight s' =
    inflight s ++ [mkTask randomUUID f (selectedLanguage (app s)) AwaitEncode] /\
  isAnalyzing (app s') = true /\
  (fresh_event s (RunAnalysis randomUUID now) = true ->
   forall r, In r (history (app s)) -> ScanRecord.id r <> randomUUID).
Proof.
  intros Hf newRecord s'.
  subst s'. rewrite (runAnalysis_staged s f randomUUID now Hf).
  simpl. repeat split.
  rewrite Hf. intros Hfresh r Hr E.
  apply negb_true_iff, mem_false in Hfresh. apply Hfresh.
  rewrite <- E. now apply in_map.
Qed.

Lemma runAnalysis_prepends_pending_record_witness :
  history (app (step (run boot [SelectLanguage HINDI;
                                Change "sample.wav" (Some [sample_wav])])
                  (RunAnalysis "id-1" 1000)))
  = [ScanRecord.mk "id-1" 1000 "sample.wav" HINDI None pending].
Proof.
  apply (runAnalysis_prepends_pending_record
           (run boot [SelectLanguage HINDI;
                      Change "sample.wav" (Some [sample_wav])])
           sample_wav "id-1" 1000).
  reflexivity.
Defined.

(** C2.  In a session whose identifiers never repeat, when the inference
    call of an invocation is fulfilled (so its encode step succeeded too),
    the store holds one record with the invocation's id; it is pending with
    a null result and carries the invocation's file name and language.  The
    event turns it into the same record with status [completed] and the
    returned result, every other record staying as it was, and whatever
    happens later the record found under that id is still this one, result
    included. *)
Theorem successful_submission_completes_once s e k t res :
  reachable s ->
  settles s e = Some (k, t, inr res) ->
  exists r,
    find_record (newRecordId t) (history (app s)) = Some r /\
    ScanRecord.status r = pending /\ ScanRecord.result r = None /\
    ScanRecord.fileName r = File.name (taskFile t) /\
    ScanRecord.language r = taskLanguage t /\
    (forall r', In r' (history (app s)) -> r' <> r ->
                In r' (history (app (step s e)))) /\
    forall tr, fresh_trace (step s e) tr = true ->
      find_record (newRecordId t) (history (app (run (step s e) tr))) =
      Some (ScanRecord.mk (ScanRecord.id r) (ScanRecord.timestamp r)
              (ScanRecord.fileName r) (ScanRecord.language r)
              (Some res) completed).
Proof.
  intros Hreach Hs. pose proof (reachable_Inv _ Hreach) as I.
  pose proof (Inv_settle _ _ _ _ _ I Hs) as I'.
  pose proof (settled_task_gone _ _ _ _ _ I Hs) as Hgone.
  destruct (step_settles _ _ _ _ _ Hs) as [Hstep Hn].
  destruct (record_of_task _ _ _ I Hn) as (r & Hfind & Hin & E & Hp & Hr & Hfn & Hl).
  exists r. repeat (split; [assumption|]). split.
  - intros r' Hr' Hne. rewrite Hstep. cbn [app]. rewrite history_reconciled.
    apply in_map_iff. exists r'. split; [|exact Hr'].
    apply reconcile_other. intros E'. apply Hne.
    pose proof (find_record_unique _ _ (inv_ids _ I) Hr') as H1.
    rewrite E' in H1. congruence.
  - intros tr Hf.
    change (ScanRecord.mk _ _ _ _ _ _) with (ScanRecord.with_completed r res).
    assert (Hin' : In (ScanRecord.with_completed r res)
                     (history (app (step s e)))).
    { rewrite Hstep. cbn [app]. rewrite history_reconciled.
      apply in_map_iff. exists r. split; [|exact Hin].
      now apply complete_by_id_same. }
    rewrite <- E.
    apply (settled_run tr (step s e) (ScanRecord.with_completed r res));
      auto.
    simpl. now rewrite E.
Qed.

Lemma successful_submission_completes_once_witness :
  exists r,
    find_record "id-1"
      (history (app (run boot (scenario_upload ++ [EncodeSettled 0 (inr "UklGRg==")]))))
      = Some r /\
    ScanRecord.status r = pending /\ ScanRecord.result r = None /\
    ScanRecord.fileName r = "sample.wav" /\
    ScanRecord.language r = HINDI /\
    (forall r',
        In r' (history (app (run boot (scenario_upload ++ [EncodeSettled 0 (inr "UklGRg==")])))) ->
        r' <> r ->
        In r' (history (app (run boot (scenario_upload ++
                 [EncodeSettled 0 (inr "UklGRg==");
                  InferenceSettled 0 (inr sample_result)]))))) /\
    forall tr,
      fresh_trace (run boot (scenario_upload ++
                     [EncodeSettled 0 (inr "UklGRg==");
                      InferenceSettled 0 (inr sample_result)])) tr = true ->
      find_record "id-1"
        (history (app (run (run boot (scenario_upload ++
                     [EncodeSettled 0 (inr "UklGRg==");
                      InferenceSettled 0 (inr sample_result)])) tr))) =
      Some (ScanRecord.mk (ScanRecord.id r) (ScanRecord.timestamp r)
              (ScanRecord.fileName r) (ScanRecord.language r)
              (Some sample_result) completed).
Proof.
  apply (successful_submission_completes_once
           (run boot (scenario_upload ++ [EncodeSettled 0 (inr "UklGRg==")]))
           (InferenceSettled 0 (inr sample_result)) 0%nat
           (mkTask "id-1" sample_wav HINDI (AwaitInference "UklGRg=="))
           sample_result).
  - exists (scenario_upload ++ [EncodeSettled 0 (inr "UklGRg==")]).
    split; reflexivity.
  - reflexivity.
Defined.

(** C3.  In a session whose identifiers never repeat, when the encode step
    or the inference call of an invocation is rejected, the record with the
    invocation's id, pending with a null result until then, becomes the same
    record with status [error]; its result is still null.  The rejection is
    consumed by the [catch] block: the promise of [runAnalysis] is fulfilled
    however the awaited promises settle, and the page records no unhandled
    rejection. *)
Theorem failed_submission_becomes_error s e k t err :
  reachable s ->
  settles s e = Some (k, t, inl err) ->
  (exists r,
    find_record (newRecordId t) (history (app s)) = Some r /\
    ScanRecord.status r = pending /\ ScanRecord.result r = None /\
    find_record (newRecordId t) (history (app (step s e))) =
      Some (ScanRecord.mk (ScanRecord.id r) (ScanRecord.timestamp r)
              (ScanRecord.fileName r) (ScanRecord.language r) None error)) /\
  unhandled (step s e) = [] /\
  forall base64 analyzeVoiceSample a,
    snd (runAnalysis_resume t base64 analyzeVoiceSample a) = inr tt.
Proof.
  intros Hreach Hs. pose proof (reachable_Inv _ Hreach) as I.
  pose proof (Inv_settle _ _ _ _ _ I Hs) as I'.
  destruct (step_settles _ _ _ _ _ Hs) as [Hstep Hn].
  destruct (record_of_task _ _ _ I Hn)
    as (r & Hfind & Hin & E & Hp & Hr & _).
  split; [|split].
  - exists r. repeat (split; [assumption|]).
    assert (Hin' : In (ScanRecord.with_error r) (history (app (step s e)))).
    { rewrite Hstep. cbn [app]. rewrite history_reconciled.
      apply in_map_iff. exists r. split; [|exact Hin].
      now apply fail_by_id_same. }
    pose proof (find_record_unique _ _ (inv_ids _ I') Hin') as H.
    simpl in H. rewrite E in H. rewrite H.
    unfold ScanRecord.with_error. now rewrite Hr.
  - rewrite step_unhandled. now apply reachable_unhandled.
  - intros [e1|b] f a; [reflexivity|].
    unfold runAnalysis_resume, try_finally, try_catch, bind, await. simpl.
    destruct (f b (taskLanguage t) (File.type (taskFile t))); reflexivity.
Qed.

Lemma failed_submission_becomes_error_witness :
  (exists r,
    find_record "id-1" (history (app (run boot scenario_upload))) = Some r /\
    ScanRecord.status r = pending /\ ScanRecord.result r = None /\
    find_record "id-1"
      (history (app (step (run boot scenario_upload)
                       (EncodeSettled 0 (inl (ReadError "unreadable")))))) =
      Some (ScanRecord.mk (ScanRecord.id r) (ScanRecord.timestamp r)
              (ScanRecord.fileName r) (ScanRecord.language r) None error)) /\
  unhandled (step (run boot scenario_upload)
               (EncodeSettled 0 (inl (ReadError "unreadable")))) = [] /\
  forall base64 analyzeVoiceSample a,
    snd (runAnalysis_resume (mkTask "id-1" sample_wav HINDI AwaitEncode)
           base64 analyzeVoiceSample a) = inr tt.
Proof.
  apply (failed_submission_becomes_error
           (run boot scenario_upload)
           (EncodeSettled 0 (inl (ReadError "unreadable"))) 0%nat
           (mkTask "id-1" sample_wav HINDI AwaitEncode)
           (ReadError "unreadable")).
  - exists scenario_upload. split; reflexivity.
  - reflexivity.
Defined.

(** C4.  Invoking [runAnalysis] while no file is staged changes nothing:
    the handler returns at once, no record is created, and the component
    state, the suspended invocations and the store are what they were. *)
Theorem runAnalysis_without_file_is_noop s randomUUID now :
  currentFile (app s) = None ->
  runAnalysis randomUUID now (app s) = (app s, inr None) /\
  step s (RunAnalysis randomUUID now) = s.
Proof.
  intros Hf.
  assert (H : runAnalysis randomUUID now (app s) = (app s, inr None)).
  { unfold runAnalysis, bind, gets. rewrite Hf. reflexivity. }
  split; [exact H|].
  unfold step, exec. rewrite H. now destruct s.
Qed.

Lemma runAnalysis_without_file_is_noop_witness :
  step (run boot [SelectLanguage HINDI]) (RunAnalysis "id-1" 1000)
  = run boot [SelectLanguage HINDI].
Proof.
  apply (runAnalysis_without_file_is_noop
           (run boot [SelectLanguage HINDI]) "id-1" 1000).
  reflexivity.
Defined.

(** C6.  In a session whose identifiers never repeat, a record whose status
    is [completed] or [error] is found unchanged, under its id, after any
    further sequence of events: later submissions, their reconciliation
    steps, file selections and language changes all leave its status, its
    result and its other fields as they are. *)
Theorem terminal_records_never_change s r tr :
  reachable s ->
  In r (history (app s)) ->
  terminal (ScanRecord.status r) = true ->
  fresh_trace s tr = true ->
  find_record (ScanRecord.id r) (history (app (run s tr))) = Some r /\
  In r (history (app (run s tr))).
Proof.
  intros Hreach Hr Ht Hf. pose proof (reachable_Inv _ Hreach) as I.
  assert (H : find_record (ScanRecord.id r) (history (app (run s tr))) = Some r).
  { apply settled_run; auto. now apply terminal_not_inflight. }
  split; [exact H|]. now apply find_record_In in H.
Qed.

Lemma terminal_records_never_change_witness :
  find_record "id-1"
    (history (app (run (run boot (scenario_upload ++
         [EncodeSettled 0 (inr "UklGRg==");
          InferenceSettled 0 (inr sample_result)])) second_submission)))
  = Some (ScanRecord.mk "id-1" 1000 "sample.wav" HINDI
            (Some sample_result) completed).
Proof.
  apply (terminal_records_never_change
           (run boot (scenario_upload ++
              [EncodeSettled 0 (inr "UklGRg==");
               InferenceSettled 0 (inr sample_result)]))
           (ScanRecord.mk "id-1" 1000 "sample.wav" HINDI
              (Some sample_result) completed)
           second_submission).
  - exists (scenario_upload ++
              [EncodeSettled 0 (inr "UklGRg==");
               InferenceSettled 0 (inr sample_result)]).
    split; reflexivity.
  - simpl. left. reflexivity.
  - reflexivity.
  - reflexivity.
Defined.

(** C7.  Whenever the [try] statement of an invocation comes to its end, by
    a fulfilled inference call, a rejected one or a rejected encode step,
    [isAnalyzing] is false, no file is staged and the input element, when
    mounted, has the empty value; invoking [runAnalysis] in that state does
    nothing.  In particular this is the state after a whole invocation on a
    staged file, whatever its outcome. *)
Theorem runAnalysis_always_resets s f randomUUID now outcome :
  currentFile (app s) = Some f ->
  is_reset s
    (run s (RunAnalysis randomUUID now
              :: outcome_events (length (inflight s)) outcome)) /\
  forall s0 e k t o, settles s0 e = Some (k, t, o) -> is_reset s0 (step s0 e).
Proof.
  intros Hf. split; [|exact settle_resets].
  destruct (runAnalysis_suspends s f randomUUID now Hf)
    as (Hin & Hfi).
  set (s1 := step s (RunAnalysis randomUUID now)) in *.
  set (t := mkTask randomUUID f (selectedLanguage (app s)) AwaitEncode) in *.
  assert (Hn : nth_error (inflight s1) (length (inflight s)) = Some t).
  { rewrite Hin. apply nth_error_snoc. }
  assert (Hgo : forall e k' t' o,
             settles s1 e = Some (k', t', o) -> is_reset s (step s1 e)).
  { intros e k' t' o Hs. destruct (settle_resets _ _ _ _ _ Hs) as (A & B & C & D).
    repeat split; auto. now rewrite C, Hfi. }
  destruct outcome as [err|b err|b res]; cbn [run outcome_events]; fold s1.
  - eapply Hgo. simpl. rewrite Hn. reflexivity.
  - assert (Hs2 : step s1 (EncodeSettled (length (inflight s)) (inr b)) =
                  with_inflight s1
                    (inflight s ++
                       [mkTask randomUUID f (selectedLanguage (app s))
                          (AwaitInference b)])).
    { simpl. rewrite Hn. simpl. rewrite Hin, replace_nth_snoc. reflexivity. }
    rewrite Hs2.
    destruct (settle_resets (with_inflight s1 (inflight s ++
                [mkTask randomUUID f (selectedLanguage (app s)) (AwaitInference b)]))
                (InferenceSettled (length (inflight s)) (inl err))
                (length (inflight s))
                (mkTask randomUUID f (selectedLanguage (app s)) (AwaitInference b))
                (inl err)) as (A & B & C & D).
    { simpl. rewrite nth_error_snoc. reflexivity. }
    repeat split; auto. rewrite C. simpl. now rewrite Hfi.
  - assert (Hs2 : step s1 (EncodeSettled (length (inflight s)) (inr b)) =
                  with_inflight s1
                    (inflight s ++
                       [mkTask randomUUID f (selectedLanguage (app s))
                          (AwaitInference b)])).
    { simpl. rewrite Hn. simpl. rewrite Hin, replace_nth_snoc. reflexivity. }
    rewrite Hs2.
    destruct (settle_resets (with_inflight s1 (inflight s ++
                [mkTask randomUUID f (selectedLanguage (app s)) (AwaitInference b)]))
                (InferenceSettled (length (inflight s)) (inr res))
                (length (inflight s))
                (mkTask randomUUID f (selectedLanguage (app s)) (AwaitInference b))
                (inr res)) as (A & B & C & D).
    { simpl. rewrite nth_error_snoc. reflexivity. }
    repeat split; auto. rewrite C. simpl. now rewrite Hfi.
Qed.

Lemma runAnalysis_always_resets_witness :
  is_reset
    (run boot [Change "sample.wav" (Some [sample_wav])])
    (run (run boot [Change "sample.wav" (Some [sample_wav])])
       (RunAnalysis "id-1" 1000
          :: outcome_events 0 (InferenceFails "UklGRg==" (AnalysisError "network")))).
Proof.
  apply (runAnalysis_always_resets
           (run boot [Change "sample.wav" (Some [sample_wav])])
           sample_wav "id-1" 1000
           (InferenceFails "UklGRg==" (AnalysisError "network"))).
  reflexivity.
Defined.

(** C8.  The reconciliation step maps over the whole store and compares
    ids: the store keeps its length, every record whose id differs from the
    invocation's is found unchanged at the position it had, and a record
    carrying the invocation's id is updated wherever it stands. *)
Theorem reconciliation_updates_only_its_record s e k t o :
  settles s e = Some (k, t, o) ->
  length (history (app (step s e))) = length (history (app s)) /\
  (forall i r,
      nth_error (history (app s)) i = Some r ->
      ScanRecord.id r <> newRecordId t ->
      nth_error (history (app (step s e))) i = Some r) /\
  (forall i r,
      nth_error (history (app s)) i = Some r ->
      ScanRecord.id r = newRecordId t ->
      nth_error (history (app (step s e))) i =
      Some (match o with
            | inr res => ScanRecord.with_completed r res
            | inl _ => ScanRecord.with_error r
            end)).
Proof.
  intros Hs. destruct (step_settles _ _ _ _ _ Hs) as [-> _].
  cbn [app]. rewrite history_reconciled. split; [apply length_map|].
  split; intros i r Hn E; rewrite nth_error_map, Hn; simpl; f_equal.
  - now apply reconcile_other.
  - destruct o; [now apply fail_by_id_same | now apply complete_by_id_same].
Qed.

Lemma reconciliation_updates_only_its_record_witness :
  history (app (step two_pending (EncodeSettled 0 (inl (ReadError "gone")))))
  = [ScanRecord.mk "id-b" 2 "b.wav" ENGLISH None pending;
     ScanRecord.mk "id-a" 1 "a.wav" ENGLISH None error]
  /\ nth_error
       (history (app (step two_pending (EncodeSettled 0 (inl (ReadError "gone"))))))
       0
     = Some (ScanRecord.mk "id-b" 2 "b.wav" ENGLISH None pending).
Proof.
  split; [reflexivity|].
  apply (reconciliation_updates_only_its_record two_pending
           (EncodeSettled 0 (inl (ReadError "gone"))) 0%nat
           (mkTask "id-a" (File.mk "a.wav" "audio/wav" 10) ENGLISH AwaitEncode)
           (inl (ReadError "gone"))).
  - reflexivity.
  - reflexivity.
  - discriminate.
Defined.

(** C9, as the specification states it: the default language is the first
    member of the enumeration.  It is not. *)
Lemma default_language_is_not_first :
  ~ (hd_error Language_members = Some (selectedLanguage (app boot))) /\
  selectedLanguage (app boot) <> TAMIL.
Proof. split; discriminate. Qed.

(** C9, amended.  The language selected on first render is English, the
    second member of the enumeration Tamil, English, Hindi, Malayalam,
    Telugu, whose first member is Tamil. *)
Theorem default_language_is_english :
  selectedLanguage (app boot) = ENGLISH /\
  nth_error Language_members 1 = Some ENGLISH /\
  hd_error Language_members = Some TAMIL /\
  map Language_value Language_members =
    ["Tamil"; "English"; "Hindi"; "Malayalam"; "Telugu"] /\
  forall l, In l Language_members.
Proof.
  repeat split. intros []; simpl; tauto.
Qed.

(** C10.  A change event of the file input that carries no file, because
    its file list is null or empty, leaves the component state as it is: the
    staged file is neither cleared nor replaced. *)
Theorem handleFileUpload_without_file_keeps_staged s value files :
  files = None \/ files = Some [] ->
  handleFileUpload files (app s) = (app s, inr tt) /\
  currentFile (app (step s (Change value files))) = currentFile (app s) /\
  history (app (step s (Change value files))) = history (app s) /\
  inflight (step s (Change value files)) = inflight s.
Proof.
  intros [-> | ->]; repeat split.
Qed.

Lemma handleFileUpload_without_file_keeps_staged_witness :
  currentFile
    (app (step (run boot [Change "sample.wav" (Some [sample_wav])])
            (Change EmptyString (Some []))))
  = Some sample_wav.
Proof.
  apply (handleFileUpload_without_file_keeps_staged
           (run boot [Change "sample.wav" (Some [sample_wav])])
           EmptyString (Some [])).
  right. reflexivity.
Defined.

(** C5.  No event removes a record: an event keeps the id, timestamp, file
    name and language of every stored record, in order, and puts at most
    one record in front of them; a submission puts exactly one.  After
    submissions made one after the other, each settled before the next is
    made, the store lists them latest first, and when the clock advanced
    between submissions the timestamps are strictly decreasing. *)
Theorem history_is_append_only_and_latest_first :
  (forall s e,
      exists pre, (length pre <= 1)%nat /\
        map ScanRecord.fixed (history (app (step s e))) =
        map ScanRecord.fixed (pre ++ history (app s))) /\
  (forall s tr,
      exists pre,
        map ScanRecord.fixed (history (app (run s tr))) =
        map ScanRecord.fixed (pre ++ history (app s))) /\
  (forall s f randomUUID now,
      currentFile (app s) = Some f ->
      exists r, history (app (step s (RunAnalysis randomUUID now))) =
                r :: history (app s)) /\
  (forall subs,
      map ScanRecord.fixed (history (app (run boot (sequential subs)))) =
      rev (map submitted subs)) /\
  (forall subs,
      StronglySorted Z.lt (map sub_now subs) ->
      StronglySorted Z.gt
        (map ScanRecord.timestamp (history (app (run boot (sequential subs)))))).
Proof.
  assert (Hseq : forall subs,
      map ScanRecord.fixed (history (app (run boot (sequential subs)))) =
      rev (map submitted subs)).
  { intros subs. destruct (sequential_fixed subs boot eq_refl) as [_ H].
    rewrite H. simpl. apply app_nil_r. }
  split; [exact step_fixed|]. split; [intros s tr; apply run_fixed|].
  split; [|split; [exact Hseq|]].
  - intros s f u n Hf. rewrite (runAnalysis_staged s f u n Hf).
    eexists. reflexivity.
  - intros subs Hsorted.
    rewrite timestamps_of_fixed, Hseq, <- map_rev, map_map. simpl.
    rewrite map_rev. now apply StronglySorted_rev_lt.
Qed.

Lemma history_is_append_only_and_latest_first_witness :
  StronglySorted Z.lt (map sub_now two_submissions) /\
  StronglySorted Z.gt
    (map ScanRecord.timestamp
       (history (app (run boot (sequential two_submissions))))) /\
  history (app (run boot (sequential two_submissions))) =
  [ScanRecord.mk "id-2" 2000 "other.mp3" TAMIL None error;
   ScanRecord.mk "id-1" 1000 "sample.wav" HINDI (Some sample_result) completed].
Proof.
  assert (H : StronglySorted Z.lt (map sub_now two_submissions)).
  { repeat constructor. }
  split; [exact H|]. split; [|reflexivity].
  apply (proj2 (proj2 (proj2 (proj2 history_is_append_only_and_latest_first)))
           two_submissions H).
Defined.

(** * Further properties of the component *)

(** ** The encoder *)

Lemma split_on_nonempty sep s : split_on sep s <> [].
Proof.
  destruct s as [|c s]; simpl; [discriminate|].
  destruct (Ascii.eqb c sep); [discriminate|].
  destruct (split_on sep s); discriminate.
Qed.

Lemma split_on_absent sep s :
  occurs sep s = false -> split_on sep s = [s].
Proof.
  induction s as [|c s IH]; simpl; [reflexivity|].
  intros H. apply orb_false_iff in H as [Hc Hs].
  rewrite Hc, (IH Hs). reflexivity.
Qed.

Lemma split_on_header sep header rest :
  occurs sep header = false ->
  split_on sep (header ++ String sep rest)%string =
  header :: split_on sep rest.
Proof.
  induction header as [|c h IH]; simpl.
  - intros _. now rewrite Ascii.eqb_refl.
  - intros H. apply orb_false_iff in H as [Hc Hs].
    rewrite Hc, (IH Hs). reflexivity.
Qed.

Lemma split_on_pieces sep s :
  Forall (fun piece => occurs sep piece = false) (split_on sep s).
Proof.
  induction s as [|c s IH]; simpl.
  - repeat constructor.
  - destruct (Ascii.eqb c sep) eqn:Hc.
    + constructor; [reflexivity | exact IH].
    + destruct (split_on sep s) as [|piece rest].
      * repeat constructor. simpl. now rewrite Hc.
      * inversion IH; subst. constructor; [|assumption].
        simpl. now rewrite Hc.
Qed.

Lemma occurs_header sep s :
  occurs sep s = true ->
  exists header rest,
    s = (header ++ String sep rest)%string /\ occurs sep header = false.
Proof.
  induction s as [|c s IH]; simpl; [discriminate|].
  destruct (Ascii.eqb c sep) eqn:Hc; simpl.
  - intros _. apply Ascii.eqb_eq in Hc as ->.
    exists EmptyString, s. split; reflexivity.
  - intros H. destruct (IH H) as (h & r & -> & Hh).
    exists (String c h), r. split; [reflexivity|]. simpl. now rewrite Hc.
Qed.

(** X1.  When the text the reader produced is a header without a comma, a
    comma, and a payload, [convertToBase64] resolves with the payload up to
    its first comma; with a payload free of commas, as base64 text is, it
    resolves with the whole payload. *)
Theorem base64String_of_data_url header payload :
  occurs comma header = false ->
  base64String (header ++ String comma payload)%string =
    hd_error (split_on comma payload) /\
  (occurs comma payload = false ->
   convertToBase64 (onload (header ++ String comma payload)%string) =
     inr (Some payload)).
Proof.
  intros Hh. unfold convertToBase64, base64String.
  rewrite (split_on_header comma header payload Hh). simpl.
  split.
  - now destruct (split_on comma payload).
  - intros Hp. now rewrite (split_on_absent comma payload Hp).
Qed.

Lemma base64String_of_data_url_witness :
  convertToBase64 (onload "data:audio/wav;base64,UklGRg==") =
  inr (Some "UklGRg==").
Proof.
  apply (base64String_of_data_url "data:audio/wav;base64" "UklGRg==");
    reflexivity.
Defined.

(** X2.  [convertToBase64] resolves with [undefined] exactly when the text
    of the reader holds no comma; otherwise it resolves with a text that
    holds no comma itself.  A reader error rejects the promise with that
    error. *)
Theorem base64String_defined_iff_comma result :
  (if occurs comma result
   then exists b, convertToBase64 (onload result) = inr (Some b) /\
                  occurs comma b = false
   else convertToBase64 (onload result) = inr None) /\
  forall err, convertToBase64 (onerror err) = inl err.
Proof.
  split; [|reflexivity].
  destruct (occurs comma result) eqn:Ho.
  - destruct (occurs_header comma result Ho) as (h & r & -> & Hh).
    unfold convertToBase64, base64String.
    rewrite (split_on_header comma h r Hh). simpl.
    pose proof (split_on_pieces comma r) as Hp.
    pose proof (split_on_nonempty comma r) as Hn.
    destruct (split_on comma r) as [|b rest]; [contradiction|].
    exists b. split; [reflexivity|]. now inversion Hp.
  - unfold convertToBase64, base64String.
    now rewrite (split_on_absent comma result Ho).
Qed.

(** ** Events that neither start nor end an invocation *)

Lemma length_replace_nth {A} k (x y : A) l :
  nth_error l k = Some y -> length (replace_nth k x l) = length l.
Proof.
  intros H.
  pose proof (map_replace_nth (fun _ : A => tt) k x l y H eq_refl) as E.
  apply (f_equal (@length unit)) in E. now rewrite !length_map in E.
Qed.

Lemma length_remove_nth {A} k (x : A) l :
  nth_error l k = Some x -> length l = S (length (remove_nth k l)).
Proof.
  intros H. destruct (nth_error_middle l k x H) as (l1 & l2 & -> & ->).
  rewrite !length_app. simpl. lia.
Qed.

Lemma step_quiet s e :
  settles s e = None ->
  (forall u n, e = RunAnalysis u n -> currentFile (app s) = None) ->
  isAnalyzing (app (step s e)) = isAnalyzing (app s) /\
  history (app (step s e)) = history (app s) /\
  console (app (step s e)) = console (app s) /\
  length (inflight (step s e)) = length (inflight s).
Proof.
  unfold settles, step.
  destruct e as [v fs|l| |u n|j [err|b]|j r]; intros H Hrun.
  - unfold exec, handleFileUpload, bind; simpl.
    destruct (first_file fs); simpl; auto.
  - simpl. auto.
  - simpl. auto.
  - unfold exec, runAnalysis, bind, gets. simpl.
    rewrite (Hrun u n eq_refl). simpl. auto.
  - destruct (nth_error (inflight s) j) as [t|] eqn:Hn; auto.
    destruct (phase t); try discriminate; auto.
  - destruct (nth_error (inflight s) j) as [t|] eqn:Hn; auto.
    destruct (phase t) eqn:Hp; auto. simpl. repeat split.
    now apply length_replace_nth with (y := t).
  - destruct (nth_error (inflight s) j) as [t|] eqn:Hn; auto.
    destruct (phase t); try discriminate; auto.
Qed.

Lemma step_cases s e : step_kind s e.
Proof.
  destruct (settles s e) as [[[k t] o]|] eqn:Hs.
  - destruct (step_settles _ _ _ _ _ Hs) as [H Hn].
    eapply kind_settle; eauto.
  - assert (Hq : (forall u n, e = RunAnalysis u n -> currentFile (app s) = None)
                 \/ exists u n f, e = RunAnalysis u n /\
                                  currentFile (app s) = Some f).
    { destruct e; try (left; intros; discriminate).
      destruct (currentFile (app s)) as [f|] eqn:Hf.
      - right. eauto.
      - left. auto. }
    destruct Hq as [Hq | (u & n & f & -> & Hf)].
    + destruct (step_quiet s e Hs Hq) as (A & B & C & D).
      now apply kind_quiet.
    + eapply kind_start; eauto. now apply runAnalysis_staged.
Qed.

(** ** What the cards of the history show *)

(** X3.  In a session whose identifiers never repeat, the keys given to
    React for the cards of the history are pairwise distinct. *)
Theorem card_keys_distinct s :
  reachable s -> NoDup (card_keys (app s)).
Proof.
  intros H. apply (inv_ids s (reachable_Inv s H)).
Qed.

Lemma card_keys_distinct_witness :
  NoDup (card_keys (app (run two_pending second_submission))).
Proof.
  apply (card_keys_distinct (run two_pending second_submission)).
  exists ([Change "a.wav" (Some [File.mk "a.wav" "audio/wav" 10]);
           RunAnalysis "id-a" 1;
           Change "b.wav" (Some [File.mk "b.wav" "audio/wav" 20]);
           RunAnalysis "id-b" 2] ++ second_submission).
  split; vm_compute; reflexivity.
Defined.

Lemma completed_has_result_step s e :
  (forall r, In r (history (app s)) ->
             ScanRecord.status r = completed -> ScanRecord.result r <> None) ->
  forall r, In r (history (app (step s e))) ->
            ScanRecord.status r = completed -> ScanRecord.result r <> None.
Proof.
  intros H r. destruct (step_cases s e) as [k t o _ -> _ | u n f _ _ -> | _ _ -> _ _].
  - cbn [app]. rewrite history_reconciled. intros Hr.
    apply in_map_iff in Hr as (r0 & <- & Hr0).
    destruct o as [err|res]; simpl; unfold fail_by_id, complete_by_id;
      destruct (String.eqb _ _); simpl; try discriminate; auto.
  - simpl. intros [<-|Hr]; simpl; [discriminate | auto].
  - auto.
Qed.

Lemma completed_has_result tr : forall s,
  (forall r, In r (history (app s)) ->
             ScanRecord.status r = completed -> ScanRecord.result r <> None) ->
  forall r, In r (history (app (run s tr))) ->
            ScanRecord.status r = completed -> ScanRecord.result r <> None.
Proof.
  induction tr as [|e tr IH]; intros s H; simpl; [exact H|].
  apply IH. now apply completed_has_result_step.
Qed.

(** X4.  In a session whose identifiers never repeat, every card shows one
    thing besides its badge: a pending record has no result, no result
    panel and no error message; a completed record has a result and its
    panel displays it; a failed record has no result and shows the error
    message only. *)
Theorem card_shows_its_status s r :
  reachable s ->
  In r (history (app s)) ->
  match ScanRecord.status r with
  | pending =>
      ScanRecord.result r = None /\ result_panel r = None /\
      error_message r = false /\ status_badge r = badge_blue_pulse
  | completed =>
      (exists res, ScanRecord.result r = Some res /\
                   result_panel r = Some res) /\
      error_message r = false /\ status_badge r = badge_green
  | error =>
      ScanRecord.result r = None /\ result_panel r = None /\
      error_message r = true /\ status_badge r = badge_red
  end.
Proof.
  intros Hreach Hr. pose proof (reachable_Inv _ Hreach) as I.
  pose proof (inv_result _ I r Hr) as Hnull.
  destruct Hreach as (tr & _ & <-).
  assert (Hdone : ScanRecord.status r = completed ->
                  ScanRecord.result r <> None).
  { apply (completed_has_result tr boot); [|exact Hr]. simpl. tauto. }
  unfold result_panel, error_message, status_badge.
  destruct (ScanRecord.status r) eqn:Hst.
  - rewrite Hnull by discriminate. auto.
  - split; [|auto]. destruct (ScanRecord.result r) as [res|].
    + exists res. auto.
    + now destruct (Hdone eq_refl).
  - rewrite Hnull by discriminate. auto.
Qed.

Lemma card_shows_its_status_witness :
  (exists res,
      ScanRecord.result
        (ScanRecord.mk "id-1" 1000 "sample.wav" HINDI (Some sample_result)
           completed) = Some res /\
      result_panel
        (ScanRecord.mk "id-1" 1000 "sample.wav" HINDI (Some sample_result)
           completed) = Some res) /\
  error_message
    (ScanRecord.mk "id-1" 1000 "sample.wav" HINDI (Some sample_result)
       completed) = false /\
  status_badge
    (ScanRecord.mk "id-1" 1000 "sample.wav" HINDI (Some sample_result)
       completed) = badge_green.
Proof.
  apply (card_shows_its_status
           (run boot (scenario_upload ++
              [EncodeSettled 0 (inr "UklGRg==");
               InferenceSettled 0 (inr sample_result)]))
           (ScanRecord.mk "id-1" 1000 "sample.wav" HINDI (Some sample_result)
              completed)).
  - exists (scenario_upload ++
              [EncodeSettled 0 (inr "UklGRg==");
               InferenceSettled 0 (inr sample_result)]).
    split; reflexivity.
  - simpl. left. reflexivity.
Defined.

(** ** Counting records *)

Lemma count_status_app st l1 l2 :
  count_status st (l1 ++ l2) = (count_status st l1 + count_status st l2)%nat.
Proof. unfold count_status. now rewrite filter_app, length_app. Qed.

Lemma count_status_cons st r l :
  count_status st (r :: l) =
  ((if Status_eqb (ScanRecord.status r) st then 1 else 0)
   + count_status st l)%nat.
Proof.
  unfold count_status. simpl.
  now destruct (Status_eqb (ScanRecord.status r) st).
Qed.

Lemma reconcile_absent i o h :
  ~ In i (ids h) -> map (reconcile i o) h = h.
Proof.
  induction h as [|a h IH]; simpl; [reflexivity|].
  intros H. rewrite reconcile_other, IH; auto.
Qed.

Lemma reconcile_split i o l1 r l2 :
  NoDup (ids (l1 ++ r :: l2)) -> ScanRecord.id r = i ->
  map (reconcile i o) (l1 ++ r :: l2) = l1 ++ reconcile i o r :: l2.
Proof.
  unfold ids. rewrite map_app. simpl. intros Hd E.
  apply NoDup_remove_2 in Hd. rewrite E in Hd.
  rewrite map_app. simpl.
  rewrite !reconcile_absent; auto; unfold ids; intros H; apply Hd;
    apply in_or_app; auto.
Qed.

Lemma counted_step s e :
  Inv s -> counted s -> counted (step s e).
Proof.
  intros I [Hp He]. unfold counted.
  destruct (step_cases s e)
    as [k t o _ -> Hn | u n f _ _ -> | _ _ -> -> ->]; [| |auto].
  - destruct (record_of_task _ _ _ I Hn)
      as (r & _ & Hin & E & Hst & _).
    apply in_split in Hin as (l1 & l2 & Hh).
    pose proof (inv_ids _ I) as Hd.
    cbn [app inflight]. rewrite history_reconciled.
    rewrite Hh in *. rewrite (reconcile_split _ o _ _ _ Hd E).
    rewrite !count_status_app, !count_status_cons in *.
    rewrite Hst in *. simpl in Hp, He.
    pose proof (length_remove_nth _ _ _ Hn) as Hl.
    destruct o as [err|res]; simpl;
      [rewrite fail_by_id_same by exact E
      | rewrite complete_by_id_same by exact E];
      simpl; rewrite ?length_app; simpl; lia.
  - cbn [app inflight history console].
    rewrite !count_status_cons, length_app. simpl. lia.
Qed.

Lemma counted_run tr : forall s,
  Inv s -> counted s -> fresh_trace s tr = true -> counted (run s tr).
Proof.
  induction tr as [|e tr IH]; intros s I H Hf; simpl in *; [exact H|].
  apply andb_true_iff in Hf as [He Hf].
  apply IH; auto using Inv_step, counted_step.
Qed.

Lemma pending_count_of_reachable s :
  reachable s ->
  count_status pending (history (app s)) = length (inflight s).
Proof.
  intros (tr & Hf & <-).
  apply (counted_run tr boot Inv_boot); [|exact Hf]. split; reflexivity.
Qed.

(** X5.  In a session whose identifiers never repeat, the store holds as
    many pending records as there are suspended invocations, and as many
    failed records as there are lines written by [console.error]. *)
Theorem pending_and_failed_records_counted s :
  reachable s ->
  count_status pending (history (app s)) = length (inflight s) /\
  count_status error (history (app s)) = length (console (app s)).
Proof.
  intros (tr & Hf & <-).
  apply (counted_run tr boot Inv_boot); [|exact Hf]. split; reflexivity.
Qed.

Lemma pending_and_failed_records_counted_witness :
  count_status pending (history (app two_pending)) = 2%nat /\
  count_status error (history (app two_pending)) = 0%nat.
Proof.
  apply (pending_and_failed_records_counted two_pending).
  exists [Change "a.wav" (Some [File.mk "a.wav" "audio/wav" 10]);
          RunAnalysis "id-a" 1;
          Change "b.wav" (Some [File.mk "b.wav" "audio/wav" 20]);
          RunAnalysis "id-b" 2].
  split; vm_compute; reflexivity.
Defined.

(** ** The in-flight flag *)

Lemma flag_needs_task_step s e :
  (isAnalyzing (app s) = true -> inflight s <> []) ->
  isAnalyzing (app (step s e)) = true -> inflight (step s e) <> [].
Proof.
  intros H.
  destruct (step_cases s e)
    as [k t o _ -> Hn | u n f _ _ -> | _ Hflag _ _ Hlen].
  - simpl. discriminate.
  - simpl. intros _ E. now apply app_eq_nil in E as [_ E].
  - rewrite Hflag. intros Ht E. apply (H Ht).
    rewrite E in Hlen. simpl in Hlen.
    now destruct (inflight s).
Qed.

(** X6.  Whatever the events of a session, [isAnalyzing] is true only while
    some invocation of [runAnalysis] is suspended. *)
Theorem isAnalyzing_needs_suspended_invocation tr :
  isAnalyzing (app (run boot tr)) = true -> inflight (run boot tr) <> [].
Proof.
  assert (H : forall s, (isAnalyzing (app s) = true -> inflight s <> []) ->
                        isAnalyzing (app (run s tr)) = true ->
                        inflight (run s tr) <> []).
  { induction tr as [|e tr IH]; intros s Hs; simpl; [exact Hs|].
    apply IH. now apply flag_needs_task_step. }
  apply H. simpl. discriminate.
Qed.

Lemma isAnalyzing_needs_suspended_invocation_witness :
  inflight (run boot scenario_upload) <> [].
Proof.
  apply (isAnalyzing_needs_suspended_invocation scenario_upload).
  reflexivity.
Defined.

Lemma single_flight_step s e :
  ui_event s e = true ->
  length (inflight s) = (if isAnalyzing (app s) then 1 else 0)%nat ->
  length (inflight (step s e)) =
    (if isAnalyzing (app (step s e)) then 1 else 0)%nat.
Proof.
  intros Hui H.
  destruct (step_cases s e)
    as [k t o _ -> Hn | u n f -> Hf -> | _ Hflag _ _ Hlen].
  - simpl. pose proof (length_remove_nth _ _ _ Hn) as Hl.
    destruct (isAnalyzing (app s)); lia.
  - simpl in *. unfold clickable, analyze_button in Hui.
    rewrite Hf in Hui. simpl in Hui. apply negb_true_iff in Hui.
    rewrite Hui in H. rewrite length_app. simpl. lia.
  - now rewrite Hflag, Hlen.
Qed.

Lemma single_flight_run tr : forall s,
  ui_trace s tr = true ->
  length (inflight s) = (if isAnalyzing (app s) then 1 else 0)%nat ->
  length (inflight (run s tr)) =
    (if isAnalyzing (app (run s tr)) then 1 else 0)%nat.
Proof.
  induction tr as [|e tr IH]; intros s Hui H; simpl in *; [exact H|].
  apply andb_true_iff in Hui as [He Hui].
  apply IH; [exact Hui | now apply single_flight_step].
Qed.

(** X7.  When [runAnalysis] is only invoked through the button, which is
    rendered while a file is staged and disabled while [isAnalyzing], at
    most one invocation is suspended at any time: exactly one while
    [isAnalyzing] is true and none while it is false.  If moreover the
    identifiers never repeat, the same holds of the pending records. *)
Theorem button_admits_one_invocation tr :
  ui_trace boot tr = true ->
  length (inflight (run boot tr)) =
    (if isAnalyzing (app (run boot tr)) then 1 else 0)%nat /\
  (fresh_trace boot tr = true ->
   count_status pending (history (app (run boot tr))) =
     (if isAnalyzing (app (run boot tr)) then 1 else 0)%nat).
Proof.
  intros Hui.
  assert (H : length (inflight (run boot tr)) =
              (if isAnalyzing (app (run boot tr)) then 1 else 0)%nat).
  { now apply single_flight_run. }
  split; [exact H|]. intros Hf. rewrite <- H.
  apply (counted_run tr boot Inv_boot); [|exact Hf]. split; reflexivity.
Qed.

Lemma button_admits_one_invocation_witness :
  length (inflight (run boot (sequential two_submissions ++ scenario_upload))) =
  (if isAnalyzing
        (app (run boot (sequential two_submissions ++ scenario_upload)))
   then 1 else 0)%nat.
Proof.
  refine (proj1 (button_admits_one_invocation
                   (sequential two_submissions ++ scenario_upload) _)).
  vm_compute. reflexivity.
Defined.

Lemma settle_is_fresh s e k t o :
  settles s e = Some (k, t, o) -> fresh_trace s [e] = true.
Proof. destruct e; simpl; try discriminate; reflexivity. Qed.

(** X8.  The flag is a boolean, not a counter: when invocations overlap,
    the end of one of them sets [isAnalyzing] to false although another is
    still suspended and its record still pending. *)
Theorem overlapping_invocations_clear_flag_early s e k t o :
  reachable s ->
  settles s e = Some (k, t, o) ->
  (2 <= length (inflight s))%nat ->
  isAnalyzing (app (step s e)) = false /\
  (1 <= length (inflight (step s e)))%nat /\
  (1 <= count_status pending (history (app (step s e))))%nat.
Proof.
  intros Hreach Hs Hlen.
  pose proof (reachable_run s [e] Hreach (settle_is_fresh _ _ _ _ _ Hs)) as Hr.
  simpl in Hr. apply pending_count_of_reachable in Hr.
  destruct (step_settles _ _ _ _ _ Hs) as [Hstep Hn].
  pose proof (length_remove_nth _ _ _ Hn) as Hl.
  rewrite Hr. rewrite Hstep. simpl. repeat split; lia.
Qed.

Lemma overlapping_invocations_clear_flag_early_witness :
  isAnalyzing
    (app (step two_inferring (InferenceSettled 0 (inr sample_result)))) = false /\
  (1 <= length (inflight
                  (step two_inferring (InferenceSettled 0 (inr sample_result)))))%nat /\
  (1 <= count_status pending
          (history (app (step two_inferring
                           (InferenceSettled 0 (inr sample_result))))))%nat.
Proof.
  apply (overlapping_invocations_clear_flag_early two_inferring
           (InferenceSettled 0 (inr sample_result)) 0%nat
           (mkTask "id-a" (File.mk "a.wav" "audio/wav" 10) ENGLISH
              (AwaitInference "QQ=="))
           (inr sample_result)).
  - exists [Change "a.wav" (Some [File.mk "a.wav" "audio/wav" 10]);
            RunAnalysis "id-a" 1;
            Change "b.wav" (Some [File.mk "b.wav" "audio/wav" 20]);
            RunAnalysis "id-b" 2;
            EncodeSettled 0 (inr "QQ=="); EncodeSettled 1 (inr "Qg==")].
    split; vm_compute; reflexivity.
  - reflexivity.
  - vm_compute. lia.
Defined.

Lemma runAnalysis_without_file_noop s randomUUID now :
  currentFile (app s) = None -> step s (RunAnalysis randomUUID now) = s.
Proof.
  intros Hf. unfold step, exec, runAnalysis, bind, gets.
  rewrite Hf. now destruct s.
Qed.

(** ** What an invocation captured *)



(** X10.  Staging and submitting compose as follows: after a change event
    that carries files, [runAnalysis] creates the record of the first of
    them, whatever was staged before; after the staged file is removed,
    [runAnalysis] does nothing. *)
Theorem last_staged_file_is_submitted s value file others randomUUID now :
  history (app (run s [Change value (Some (file :: others));
                       RunAnalysis randomUUID now])) =
    ScanRecord.mk randomUUID now (File.name file) (selectedLanguage (app s))
      None pending :: history (app s) /\
  run s [RemoveFile; RunAnalysis randomUUID now] = step s RemoveFile /\
  history (app (step s RemoveFile)) = history (app s).
Proof.
  split; [|split]; [| |reflexivity].
  - cbn [run].
    rewrite (runAnalysis_staged _ file randomUUID now); reflexivity.
  - cbn [run]. apply runAnalysis_without_file_noop. reflexivity.
Qed.

(** X11.  The reason of a rejection reaches the console only: the store,
    the flags, the staged file and the suspended invocations after a
    rejected encode step or inference call are the same for every reason,
    and the console gains exactly that reason. *)
Theorem rejection_reason_only_logged s e k t err :
  settles s e = Some (k, t, inl err) ->
  step s e =
    mkSys
      (mkApp (selectedLanguage (app s)) false
         (map (fail_by_id (newRecordId t)) (history (app s)))
         None (cleared_input (fileInputRef (app s)))
         (console (app s) ++ [err]))
      (remove_nth k (inflight s)) (unhandled s) /\
  forall res e',
    settles s e' = Some (k, t, inr res) ->
    console (app (step s e')) = console (app s).
Proof.
  intros Hs. destruct (step_settles _ _ _ _ _ Hs) as [-> _].
  split; [reflexivity|]. intros res e' Hs'.
  now destruct (step_settles _ _ _ _ _ Hs') as [-> _].
Qed.

Lemma rejection_reason_only_logged_witness :
  console (app (step (run boot scenario_upload)
                  (EncodeSettled 0 (inl (ReadError "unreadable")))))
  = [ReadError "unreadable"].
Proof.
  pose proof (rejection_reason_only_logged (run boot scenario_upload)
                (EncodeSettled 0 (inl (ReadError "unreadable"))) 0%nat
                (mkTask "id-1" sample_wav HINDI AwaitEncode)
                (ReadError "unreadable") eq_refl) as [H _].
  rewrite H. reflexivity.
Defined.

(** ** Submissions made one after the other *)

Lemma ui_trace_app s tr1 tr2 :
  ui_trace s (tr1 ++ tr2) = ui_trace s tr1 && ui_trace (run s tr1) tr2.
Proof.
  revert s. induction tr1 as [|e tr1 IH]; intros s; simpl; [reflexivity|].
  now rewrite IH, andb_assoc.
Qed.

Lemma submission_settles s x :
  inflight s = [] -> isAnalyzing (app s) = false ->
  ~ In (sub_uuid x) (ids (history (app s))) ->
  idle (run s (submission_events x)) /\
  history (app (run s (submission_events x))) =
    settled_record x :: history (app s) /\
  ui_trace s (submission_events x) = true /\
  fresh_trace s (submission_events x) = true.
Proof.
  destruct s as [[lang0 flag h cf inp con] l un]. simpl.
  intros -> -> Hfresh.
  pose proof (proj2 (mem_false _ _) Hfresh) as Hmem.
  destruct x as [lang v f u n [err|b err|b res]];
    unfold settled_record, idle; cbn in *;
    rewrite ?Hmem; unfold fail_by_id, complete_by_id; cbn;
    rewrite String.eqb_refl; cbn.
  - repeat split. f_equal. apply (reconcile_absent u (inl err) h Hfresh).
  - repeat split. f_equal. apply (reconcile_absent u (inl err) h Hfresh).
  - repeat split. f_equal. apply (reconcile_absent u (inr res) h Hfresh).
Qed.

Lemma sequential_settles subs : forall s,
  inflight s = [] -> isAnalyzing (app s) = false ->
  NoDup (map sub_uuid subs) ->
  (forall x, In x subs -> ~ In (sub_uuid x) (ids (history (app s)))) ->
  (inflight (run s (sequential subs)) = [] /\
   isAnalyzing (app (run s (sequential subs))) = false) /\
  history (app (run s (sequential subs))) =
    rev (map settled_record subs) ++ history (app s) /\
  ui_trace s (sequential subs) = true /\
  fresh_trace s (sequential subs) = true.
Proof.
  induction subs as [|x subs IH]; intros s Hi Hflag Hd Hnew.
  - simpl. auto.
  - change (sequential (x :: subs))
      with (submission_events x ++ sequential subs).
    inversion Hd as [|? ? Hx Hd']; subst.
    destruct (submission_settles s x Hi Hflag (Hnew x (or_introl eq_refl)))
      as ((Hi1 & Hflag1 & _) & Hh1 & Hui1 & Hf1).
    destruct (IH (run s (submission_events x)) Hi1 Hflag1 Hd')
      as (Hidle & Hh & Hui & Hf).
    { intros y Hy. rewrite Hh1. simpl. intros [E|Hin].
      - apply Hx.
        assert (Hid : ScanRecord.id (settled_record x) = sub_uuid x).
        { unfold settled_record. now destruct (sub_outcome x). }
        rewrite <- Hid, E. now apply in_map.
      - apply (Hnew y (or_intror Hy) Hin). }
    rewrite run_app, ui_trace_app, fresh_trace_app, Hui1, Hf1, Hui, Hf.
    repeat split; try apply Hidle.
    rewrite Hh, Hh1. simpl. now rewrite <- app_assoc.
Qed.

(** X12.  Submissions made through the controls one after the other, each
    settled before the next and each with an identifier of its own, are
    admitted by the button and leave the component idle; the store is then
    exactly the list of their records, latest first, each completed with
    its result or failed with a null result. *)
Theorem sequential_submissions_settle_all subs :
  NoDup (map sub_uuid subs) ->
  history (app (run boot (sequential subs))) = rev (map settled_record subs) /\
  inflight (run boot (sequential subs)) = [] /\
  isAnalyzing (app (run boot (sequential subs))) = false /\
  ui_trace boot (sequential subs) = true /\
  fresh_trace boot (sequential subs) = true.
Proof.
  intros Hd.
  destruct (sequential_settles subs boot eq_refl eq_refl Hd)
    as ((Hi & Hflag) & Hh & Hui & Hf).
  { intros x _ H. exact H. }
  rewrite Hh. simpl. rewrite app_nil_r. auto.
Qed.

Lemma sequential_submissions_settle_all_witness :
  history (app (run boot (sequential two_submissions))) =
  rev (map settled_record two_submissions).
Proof.
  apply (sequential_submissions_settle_all two_submissions).
  repeat constructor; simpl; intuition discriminate.
Defined.
